(** * GeneralAgent: LinkedIn-first decision-maker discovery

    A shallow embedding of [src/lib/agent-architecture/agents/general-agent.ts]
    and the properties of its field classifier, query synthesizer, evidence
    collector, evidence ranker and top-level orchestration.

    Conventions of the embedding.
    - A JavaScript string is a [string] (a list of code units).  Case folding
      and the regular-expression classes [\s] and [\w] are modelled on the
      ASCII range; code units outside it are left alone by [toLowerCase] and
      are neither word nor space characters.
    - An optional property ([x?: T]) or a nullable value is an [option].
    - [Record<string, V>] used as a dictionary is a [gmap string V].
    - The three collaborators of [GeneralAgentTools] are functions over an
      abstract world [W]; a rejected promise is the [inl] of a sum.
    - [new URL(s).pathname] belongs to the platform, not to this program: it is
      a parameter [URL_pathname], [None] when the constructor throws. *)

From Stdlib Require Import String Ascii List ZArith Lia Bool Permutation Sorted.
From stdpp Require Import gmap strings list sorting.

Import ListNotations.
Local Open Scope string_scope.
Local Open Scope list_scope.

(** ** JavaScript string primitives *)

Module JS.

(** The double quote and the line feed, as one-character strings. *)
Definition dq : string := String "034"%char EmptyString.
Definition nl : string := String "010"%char EmptyString.

(** Truthiness of a string: every string but the empty one. *)
Definition truthy (s : string) : bool :=
  match s with EmptyString => false | String _ _ => true end.

(** Truthiness of [string | undefined | null]. *)
Definition truthy_opt (o : option string) : bool :=
  match o with Some s => truthy s | None => false end.

(** [a || b] on optional strings. *)
Definition or_else (a b : option string) : option string :=
  if truthy_opt a then a else b.

(** A template-literal hole [${x}] holding an optional string. *)
Definition show (o : option string) : string :=
  match o with Some s => s | None => "undefined" end.

Definition is_upper (c : ascii) : bool :=
  let n := nat_of_ascii c in (65 <=? n)%nat && (n <=? 90)%nat.

Definition lower_char (c : ascii) : ascii :=
  if is_upper c then ascii_of_nat (nat_of_ascii c + 32) else c.

(** [String.prototype.toLowerCase]. *)
Fixpoint toLowerCase (s : string) : string :=
  match s with
  | EmptyString => EmptyString
  | String c s' => String (lower_char c) (toLowerCase s')
  end.

(** [String.prototype.includes]: [pat] occurs in [s] at some offset. *)
Fixpoint includes (s pat : string) : bool :=
  String.prefix pat s
  || match s with
     | EmptyString => false
     | String _ s' => includes s' pat
     end.

(** The class [\s]. *)
Definition is_space (c : ascii) : bool :=
  let n := nat_of_ascii c in ((9 <=? n)%nat && (n <=? 13)%nat) || (n =? 32)%nat.

(** The class [\w]. *)
Definition is_word (c : ascii) : bool :=
  let n := nat_of_ascii c in
  ((48 <=? n)%nat && (n <=? 57)%nat) || ((65 <=? n)%nat && (n <=? 90)%nat)
  || ((97 <=? n)%nat && (n <=? 122)%nat) || (n =? 95)%nat.

Fixpoint map_chars (f : ascii -> ascii) (s : string) : string :=
  match s with
  | EmptyString => EmptyString
  | String c s' => String (f c) (map_chars f s')
  end.

(** [s.replace(/-/g, ' ')]. *)
Definition hyphens_to_spaces : string -> string :=
  map_chars (fun c => if Ascii.eqb c "-" then " "%char else c).

(** [s.replace(/[^\w\s]/g, ' ')]. *)
Definition punctuation_to_spaces : string -> string :=
  map_chars (fun c => if is_word c || is_space c then c else " "%char).

(** [s.replace(/\s+/g, '-')]: each maximal run of spaces becomes one hyphen. *)
Fixpoint spaces_to_hyphen_from (in_run : bool) (s : string) : string :=
  match s with
  | EmptyString => EmptyString
  | String c s' =>
      if is_space c
      then (if in_run then spaces_to_hyphen_from true s'
            else String "-" (spaces_to_hyphen_from true s'))
      else String c (spaces_to_hyphen_from false s')
  end.
Definition spaces_to_hyphen : string -> string := spaces_to_hyphen_from false.

(** [s.split(c)] for a one-character separator; [cur] is the piece being
    read. *)
Fixpoint split_from (sep : ascii) (cur : string) (s : string) : list string :=
  match s with
  | EmptyString => [cur]
  | String c s' =>
      if Ascii.eqb c sep then cur :: split_from sep EmptyString s'
      else split_from sep (cur +:+ String c EmptyString) s'
  end.
Definition split (sep : ascii) : string -> list string := split_from sep EmptyString.

(** [s.split(/\s+/)]: pieces between maximal runs of spaces. *)
Fixpoint split_spaces_from (in_run : bool) (cur : string) (s : string) : list string :=
  match s with
  | EmptyString => [cur]
  | String c s' =>
      if is_space c
      then (if in_run then split_spaces_from true cur s'
            else cur :: split_spaces_from true EmptyString s')
      else split_spaces_from false (cur +:+ String c EmptyString) s'
  end.
Definition split_spaces : string -> list string := split_spaces_from false EmptyString.

(** [xs.join(sep)]. *)
Fixpoint join (sep : string) (xs : list string) : string :=
  match xs with
  | [] => EmptyString
  | [x] => x
  | x :: rest => x +:+ sep +:+ join sep rest
  end.

(** [xs.some(p)], [xs.slice(0, n)] are [existsb] and [firstn]. *)

End JS.

(** ** Data model *)

(** [EnrichmentField] of [../core/types]: the fields this agent reads. *)
Record EnrichmentField := mkField { name : string; description : string }.

Record SearchResult := mkSearchResult {
  url : string;
  title : option string;
  markdown : option string;
  content : option string
}.

Record ScrapeResult := mkScrapeResult {
  success : bool;
  scraped_markdown : option string;
  html : option string
}.

Record EmailContext := mkEmailContext {
  companyDomain : option string;
  companyNameGuess : option string
}.

(** [discoveredData] is a free-form dictionary; the agent reads its
    [companyName] key only and uses the value as [string | undefined]. *)
Record GeneralAgentContext := mkContext {
  companyName : option string;
  discoveredData : option (gmap string string);
  emailContext : option EmailContext
}.

(** ** Field classifier *)

Definition executiveTitles : list string :=
  ["ceo"; "cto"; "cfo"; "coo"; "cmo"; "cpo"; "chief"; "founder"; "president"; "director"].

Definition isExecutiveField (field : EnrichmentField) : bool :=
  let lname := JS.toLowerCase (name field) in
  let desc := JS.toLowerCase (description field) in
  existsb (fun title => JS.includes lname title || JS.includes desc title) executiveTitles.

Definition hasExecutiveFields (fields : list EnrichmentField) : bool :=
  existsb isExecutiveField fields.

Definition extractTitle (field : EnrichmentField) : string :=
  let lname := JS.toLowerCase (name field) in
  let desc := JS.toLowerCase (description field) in
  if JS.includes lname "ceo" || JS.includes desc "chief executive" then "CEO"
  else if JS.includes lname "cto" || JS.includes desc "chief technology" then "CTO"
  else if JS.includes lname "cfo" || JS.includes desc "chief financial" then "CFO"
  else if JS.includes lname "coo" || JS.includes desc "chief operating" then "COO"
  else if JS.includes lname "cmo" || JS.includes desc "chief marketing" then "CMO"
  else if JS.includes lname "cpo" || JS.includes desc "chief product" then "CPO"
  else if JS.includes lname "founder" then "founder"
  else if JS.includes lname "president" then "president"
  else name field.

Definition stopWords : list string :=
  ["this"; "that"; "what"; "when"; "where"; "which"].

Definition getSearchTermsForField (field : EnrichmentField) : string :=
  let terms := [name field] in
  let terms :=
    if JS.truthy (description field) then
      let keyPhrases :=
        List.filter
          (fun word => (3 <? String.length word)%nat
                       && negb (existsb (String.eqb word) stopWords))
          (JS.split_spaces (JS.punctuation_to_spaces (JS.toLowerCase (description field)))) in
      terms ++ firstn 3 keyPhrases
    else terms in
  JS.join " " terms.

(** ** Query synthesizer *)

Section Queries.

(** [new URL(s).pathname]; [None] when [new URL(s)] throws. *)
Variable URL_pathname : string -> option string.

Definition pathParts (pathname : string) : list string :=
  List.filter (fun part => (0 <? String.length part)%nat) (JS.split "/" pathname).

Definition extractLinkedInCompanyName (linkedinUrl : string) : string :=
  match URL_pathname linkedinUrl with
  | Some pathname =>
      match pathParts pathname with
      | p0 :: p1 :: _ =>
          if String.eqb p0 "company" && JS.truthy p1
          then JS.hyphens_to_spaces p1
          else EmptyString
      | _ => EmptyString
      end
  | None => EmptyString
  end.

(** The canonical titles of the executive fields, empty ones dropped. *)
Definition executiveTitlesOf (fields : list EnrichmentField) : list string :=
  List.filter JS.truthy (map extractTitle (List.filter isExecutiveField fields)).

(** The queries of one non-executive field. *)
Definition otherFieldQueries (cName cDomain : option string) (field : EnrichmentField)
  : list string :=
  let fieldTerms := getSearchTermsForField field in
  (if JS.truthy_opt cName
   then [JS.dq +:+ JS.show cName +:+ JS.dq +:+ " " +:+ fieldTerms] else [])
  ++ (if JS.truthy_opt cDomain
      then ["site:" +:+ JS.show cDomain +:+ " " +:+ fieldTerms] else []).

Definition buildLinkedInFirstQueries
    (fields : list EnrichmentField)
    (cName cDomain companyLinkedInUrl : option string) : list string :=
  let executiveFields := List.filter isExecutiveField fields in
  let otherFields := List.filter (fun f => negb (isExecutiveField f)) fields in
  let queries :=
    if (0 <? length executiveFields)%nat then
      let titles := executiveTitlesOf fields in
      (* STRATEGY 1: search within the company LinkedIn page *)
      (match companyLinkedInUrl with
       | Some anchor =>
           if JS.truthy anchor then
             let linkedinCompanyName := extractLinkedInCompanyName anchor in
             [ "site:linkedin.com/in " +:+ JS.dq +:+ linkedinCompanyName +:+ JS.dq
                 +:+ " " +:+ JS.join " OR " titles;
               "site:linkedin.com/in " +:+ JS.dq +:+ JS.show cName +:+ JS.dq
                 +:+ " " +:+ JS.join " OR " titles ]
           else []
       | None => []
       end)
      (* STRATEGY 2: company-specific LinkedIn searches *)
      ++ (if JS.truthy_opt cName then
            map (fun title =>
                   "site:linkedin.com/in " +:+ JS.dq +:+ title +:+ JS.dq +:+ " "
                     +:+ JS.dq +:+ JS.show cName +:+ JS.dq +:+ " current") titles
            ++ [ "site:linkedin.com/in " +:+ JS.dq +:+ JS.show cName +:+ JS.dq
                   +:+ " leadership team";
                 "site:linkedin.com/in " +:+ JS.dq +:+ JS.show cName +:+ JS.dq
                   +:+ " executives" ]
          else [])
      (* STRATEGY 3: company website as backup *)
      ++ (if JS.truthy_opt cDomain then
            [ "site:" +:+ JS.show cDomain +:+ " team leadership about executives";
              "site:" +:+ JS.show cDomain +:+ " about-us" ]
          else [])
      (* STRATEGY 4: general web search, last resort *)
      ++ (if JS.truthy_opt cName then
            [ JS.dq +:+ JS.show cName +:+ JS.dq +:+ " " +:+ JS.join " " titles +:+ " 2025" ]
          else [])
    else [] in
  queries ++ flat_map (otherFieldQueries cName cDomain) otherFields.

(** The older synthesizer, kept in the class but no longer called by
    [execute].  [year] is [new Date().getFullYear()], printed. *)
Definition buildSearchQueries
    (year : string) (fields : list EnrichmentField)
    (cName cDomain : option string) : list string :=
  let executiveFields := List.filter isExecutiveField fields in
  let otherFields := List.filter (fun f => negb (isExecutiveField f)) fields in
  let queries :=
    if (0 <? length executiveFields)%nat then
      let titles := executiveTitlesOf fields in
      (if JS.truthy_opt cName then
         [ "site:linkedin.com/company " +:+ JS.dq +:+ JS.show cName +:+ JS.dq
             +:+ " " +:+ JS.join " OR " titles;
           "site:linkedin.com/in " +:+ JS.dq +:+ JS.show cName +:+ JS.dq
             +:+ " " +:+ JS.join " OR " titles ]
         ++ map (fun title =>
                   "site:linkedin.com/in " +:+ JS.dq +:+ title +:+ JS.dq +:+ " "
                     +:+ JS.dq +:+ JS.show cName +:+ JS.dq) titles
         ++ [ "site:linkedin.com/in " +:+ JS.dq +:+ JS.show cName +:+ JS.dq
                +:+ " leadership team executives" ]
       else [])
      ++ (if JS.truthy_opt cDomain then
            [ "site:" +:+ JS.show cDomain +:+ " team leadership about executives";
              "site:" +:+ JS.show cDomain +:+ " about-us team";
              "site:" +:+ JS.show cDomain +:+ " leadership" ]
          else [])
      ++ (if JS.truthy_opt cName then
            [ JS.dq +:+ JS.show cName +:+ JS.dq +:+ " " +:+ JS.join " " titles
                +:+ " current 2025" ]
          else [])
    else [] in
  queries
  ++ flat_map (otherFieldQueries cName cDomain) otherFields
  ++ (if JS.truthy_opt cName && (0 <? length fields)%nat
      then [ JS.dq +:+ JS.show cName +:+ JS.dq +:+ " news announcement " +:+ year ]
      else []).

End Queries.

(** A reading of [new URL(s).pathname] for the plain [http:] and [https:]
    URLs of the scenarios: scheme, [//], authority, then the path up to the
    first [?] or [#]; an absent path is [/].  Anything else is rejected. *)
Module PlainURL.

Fixpoint strip_prefix (p s : string) : option string :=
  match p, s with
  | EmptyString, _ => Some s
  | String a p', String b s' => if Ascii.eqb a b then strip_prefix p' s' else None
  | String _ _, EmptyString => None
  end.

(** What follows the authority, cut at the first [?] or [#]. *)
Fixpoint path_of (in_path : bool) (s : string) : string :=
  match s with
  | EmptyString => EmptyString
  | String c s' =>
      if Ascii.eqb c "?" || Ascii.eqb c "#" then EmptyString
      else if in_path || Ascii.eqb c "/" then String c (path_of true s')
      else path_of false s'
  end.

Definition pathname (s : string) : option string :=
  let rest :=
    match strip_prefix "https://" s with
    | Some r => Some r
    | None => strip_prefix "http://" s
    end in
  match rest with
  | Some (String c r) =>
      if Ascii.eqb c "/" || Ascii.eqb c "?" || Ascii.eqb c "#" then None
      else match path_of false (String c r) with
           | EmptyString => Some "/"
           | p => Some p
           end
  | _ => None
  end.

End PlainURL.

(** ** Platform containers: [Array.prototype.sort] and [Map] *)

Section ArraySort.

Context {A : Type}.
Variable compareFn : A -> A -> Z.

(** [x] is put in front of the first element it does not follow. *)
Fixpoint sort_insert (x : A) (l : list A) : list A :=
  match l with
  | [] => [x]
  | y :: l' =>
      if (compareFn x y <=? 0)%Z then x :: l else y :: sort_insert x l'
  end.

(** [Array.prototype.sort(compareFn)].  The language fixes the result for a
    consistent comparator: the stable sorted arrangement.  Insertion from
    the right computes it: an element stays in front of the elements that
    followed it unless the comparator puts it after them. *)
Definition Array_sort (l : list A) : list A := foldr sort_insert [] l.

End ArraySort.

Section JSMap.

Context {V : Type}.

(** [Map.prototype.set]: a known key keeps its place and takes the new
    value; a new key goes to the end. *)
Fixpoint Map_set (k : string) (v : V) (m : list (string * V)) : list (string * V) :=
  match m with
  | [] => [(k, v)]
  | (k', v') :: m' =>
      if String.eqb k' k then (k, v) :: m' else (k', v') :: Map_set k v m'
  end.

(** [new Map(entries)]: the entries are set one after the other. *)
Definition Map_of_entries (entries : list (string * V)) : list (string * V) :=
  fold_left (fun m e => Map_set (fst e) (snd e) m) entries [].

(** [Array.from(m.values())]: the values in insertion order of their keys. *)
Definition Map_values (m : list (string * V)) : list V := map snd m.

End JSMap.

(** ** Evidence ranker *)

Definition isLinkedInProfile (r : SearchResult) : bool :=
  JS.includes (url r) "linkedin.com/in" || JS.includes (url r) "linkedin.com/company".

(** [companyDomain && r.url.includes(companyDomain)], as a condition. *)
Definition isCompanySite (cDomain : option string) (r : SearchResult) : bool :=
  match cDomain with
  | Some d => JS.truthy d && JS.includes (url r) d
  | None => false
  end.

(** The comparator handed to [sort]. *)
Definition compareResults (cDomain : option string) (a b : SearchResult) : Z :=
  let aIsLinkedIn := isLinkedInProfile a in
  let bIsLinkedIn := isLinkedInProfile b in
  if aIsLinkedIn && negb bIsLinkedIn then (-1)%Z
  else if negb aIsLinkedIn && bIsLinkedIn then 1%Z
  else
    let aIsCompanySite := isCompanySite cDomain a in
    let bIsCompanySite := isCompanySite cDomain b in
    if aIsCompanySite && negb bIsCompanySite then (-1)%Z
    else if negb aIsCompanySite && bIsCompanySite then 1%Z
    else 0%Z.

Definition rankedResults (cDomain : option string) (allSearchResults : list SearchResult)
  : list SearchResult :=
  Array_sort (compareResults cDomain) allSearchResults.

Definition uniqueResults (ranked : list SearchResult) : list SearchResult :=
  Map_values (Map_of_entries (map (fun r => (url r, r)) ranked)).

Definition onLinkedIn (r : SearchResult) : bool := JS.includes (url r) "linkedin.com".

Definition prioritizedResults (unique : list SearchResult) : list SearchResult :=
  let linkedInResults := List.filter onLinkedIn unique in
  let otherResults := List.filter (fun r => negb (onLinkedIn r)) unique in
  firstn 10 (linkedInResults ++ otherResults).

(** The ranker as a whole: what [execute] does to [allSearchResults] between
    collection and serialization. *)
Definition rank (cDomain : option string) (allSearchResults : list SearchResult)
  : list SearchResult :=
  prioritizedResults (uniqueResults (rankedResults cDomain allSearchResults)).

Definition evidenceBlock (r : SearchResult) : string :=
  "URL: " +:+ url r +:+ JS.nl
  +:+ "Title: " +:+ JS.show (JS.or_else (title r) (Some "No title")) +:+ JS.nl
  +:+ "Content:" +:+ JS.nl
  +:+ JS.show (JS.or_else (JS.or_else (markdown r) (content r)) (Some EmptyString)).

Definition combinedContent (prioritized : list SearchResult) : string :=
  JS.join (JS.nl +:+ JS.nl +:+ "---" +:+ JS.nl +:+ JS.nl)
          (List.filter JS.truthy (map evidenceBlock prioritized)).

(** ** Collaborators, effects and the orchestration *)

(** A thrown value: the message of the error. *)
Definition Exn := string.

(** The context handed to the extraction engine.  Its [instruction] text is a
    function of the three identity fields below and is not repeated here;
    [callerContext] is the caller's context spread on top. *)
Record EnrichmentContext := mkEnrichmentContext {
  ec_companyName : option string;
  ec_companyDomain : option string;
  ec_targetDomain : option string;
  ec_companyLinkedInUrl : option string;
  ec_callerContext : GeneralAgentContext
}.

Section Agent.

(** The state of the world the collaborators live in, and the
    [EnrichmentResult] of [../core/types] with its test
    [enrichment && enrichment.value]. *)
Context {W : Type} {EnrichmentResult : Type}.
Variable has_value : EnrichmentResult -> bool.
Variable URL_pathname : string -> option string.

(** [search(query, {limit, scrapeOptions: {formats: ['markdown']}})],
    [scrape(url)] and [extractStructuredData(content, fields, context)];
    the answer of the last one is listed as [Object.entries] gives it. *)
Record GeneralAgentTools := mkTools {
  search : string -> nat -> W -> (Exn + list SearchResult) * W;
  scrape : string -> W -> (Exn + ScrapeResult) * W;
  extractStructuredData :
    string -> list EnrichmentField -> EnrichmentContext -> W ->
    (Exn + list (string * EnrichmentResult)) * W
}.

Variable tools : GeneralAgentTools.

(** A call made to a collaborator. *)
Inductive Call :=
| CallSearch (query : string) (limit : nat)
| CallScrape (pageUrl : string)
| CallExtract (evidence : string) (fields : list EnrichmentField) (ctx : EnrichmentContext).

(** The world, the calls made so far, and the local [results] object of the
    running invocation. *)
Record AgentState := mkState {
  world : W;
  calls : list Call;
  results : gmap string EnrichmentResult
}.

(** A computation either throws or returns, and leaves a state either way. *)
Definition M (T : Type) : Type := AgentState -> (Exn + T) * AgentState.

Definition ret {T} (x : T) : M T := fun s => (inr x, s).

Definition bind {T U} (m : M T) (k : T -> M U) : M U :=
  fun s => match m s with
           | (inr x, s') => k x s'
           | (inl e, s') => (inl e, s')
           end.

(** [try { m } catch (error) { handler }]. *)
Definition try_catch {T} (m : M T) (handler : Exn -> M T) : M T :=
  fun s => match m s with
           | (inr x, s') => (inr x, s')
           | (inl e, s') => handler e s'
           end.

Local Notation "'let*' x ':=' m 'in' k" := (bind m (fun x => k))
  (at level 10, x name, m at level 100, k at level 200, only parsing).

Definition call_search (query : string) (limit : nat) : M (list SearchResult) :=
  fun s => let '(o, w) := search tools query limit (world s) in
           (o, mkState w (calls s ++ [CallSearch query limit]) (results s)).

Definition call_scrape (pageUrl : string) : M ScrapeResult :=
  fun s => let '(o, w) := scrape tools pageUrl (world s) in
           (o, mkState w (calls s ++ [CallScrape pageUrl]) (results s)).

Definition call_extract (evidence : string) (fields : list EnrichmentField)
    (ctx : EnrichmentContext) : M (list (string * EnrichmentResult)) :=
  fun s => let '(o, w) := extractStructuredData tools evidence fields ctx (world s) in
           (o, mkState w (calls s ++ [CallExtract evidence fields ctx]) (results s)).

(** [results[fieldName] = enrichment]. *)
Definition set_result (fieldName : string) (enrichment : EnrichmentResult) : M unit :=
  fun s => (inr tt, mkState (world s) (calls s) (<[fieldName := enrichment]> (results s))).

Definition get_results : M (gmap string EnrichmentResult) :=
  fun s => (inr (results s), s).

(** [const results = {}]. *)
Definition new_results : M unit :=
  fun s => (inr tt, mkState (world s) (calls s) ∅).

(** *** Anchor resolver *)

Definition findCompanyLinkedInPage (cName : string) (cDomain : option string)
  : M (option string) :=
  try_catch
    (let linkedinSearchQuery := "site:linkedin.com/company " +:+ JS.dq +:+ cName +:+ JS.dq in
     let* searchResults := call_search linkedinSearchQuery 5 in
     if (length searchResults =? 0)%nat then ret None
     else
       let companyPages :=
         List.filter
           (fun result =>
              JS.includes (url result) "linkedin.com/company"
              && JS.includes (JS.toLowerCase (url result))
                             (JS.spaces_to_hyphen (JS.toLowerCase cName)))
           searchResults in
       match companyPages with
       | companyPage :: _ => ret (Some (url companyPage))
       | [] =>
           match List.find (fun result => JS.includes (url result) "linkedin.com/company")
                           searchResults with
           | Some anyCompanyPage => ret (Some (url anyCompanyPage))
           | None => ret None
           end
       end)
    (fun _ => ret None).

(** *** Evidence collector *)

(** The loop over the synthesized queries. *)
Fixpoint searchAll (queries : list string) (allSearchResults : list SearchResult)
  : M (list SearchResult) :=
  match queries with
  | [] => ret allSearchResults
  | query :: rest =>
      let* allSearchResults :=
        try_catch
          (let* searchResults := call_search query 3 in
           ret (if (0 <? length searchResults)%nat
                then allSearchResults ++ searchResults
                else allSearchResults))
          (fun _ => ret allSearchResults) in
      searchAll rest allSearchResults
  end.

Definition leadershipRecord (pageUrl : string) (scraped : ScrapeResult) : SearchResult :=
  mkSearchResult pageUrl (Some "Company Leadership Page")
                 (scraped_markdown scraped) (scraped_markdown scraped).

(** The loop over the three pages; it leaves at the first usable one. *)
Fixpoint scrapePages (pageUrls : list string) (allSearchResults : list SearchResult)
  : M (list SearchResult) :=
  match pageUrls with
  | [] => ret allSearchResults
  | pageUrl :: rest =>
      let* pushed :=
        try_catch
          (let* scraped := call_scrape pageUrl in
           if success scraped && JS.truthy_opt (scraped_markdown scraped)
           then ret (Some (allSearchResults ++ [leadershipRecord pageUrl scraped]))
           else ret None)
          (fun _ => ret None) in
      match pushed with
      | Some allSearchResults => ret allSearchResults   (* break *)
      | None => scrapePages rest allSearchResults
      end
  end.

Definition leadershipPages (domain : string) : list string :=
  [ "https://" +:+ domain +:+ "/about";
    "https://" +:+ domain +:+ "/team";
    "https://" +:+ domain +:+ "/leadership" ].

Definition collect (searchQueries : list string) (cDomain : option string)
    (fields : list EnrichmentField) : M (list SearchResult) :=
  let* allSearchResults := searchAll searchQueries [] in
  if JS.truthy_opt cDomain && hasExecutiveFields fields
  then try_catch (scrapePages (leadershipPages (JS.show cDomain)) allSearchResults)
                 (fun _ => ret allSearchResults)
  else ret allSearchResults.

(** *** Extraction dispatcher *)

(** The loop over [Object.entries(enrichmentResults)]. *)
Fixpoint storeResults (entries : list (string * EnrichmentResult)) : M unit :=
  match entries with
  | [] => ret tt
  | (fieldName, enrichment) :: rest =>
      let* _ := (if has_value enrichment then set_result fieldName enrichment else ret tt) in
      storeResults rest
  end.

(** *** [execute] *)

Definition resolveCompanyName (context : GeneralAgentContext) : option string :=
  JS.or_else
    (JS.or_else (companyName context)
                (discoveredData context ≫= (fun d => d !! "companyName")))
    (emailContext context ≫= companyNameGuess).

Definition resolveCompanyDomain (context : GeneralAgentContext) : option string :=
  emailContext context ≫= companyDomain.

(** The body of the [try] block.  It answers [Some r] where the source leaves
    with [return r], and [None] where control reaches the end of the block. *)
Definition execute_try (context : GeneralAgentContext) (fields : list EnrichmentField)
    (cName cDomain : option string) : M (option (gmap string EnrichmentResult)) :=
  let* companyLinkedInUrl :=
    (if JS.truthy_opt cName
     then findCompanyLinkedInPage (JS.show cName) cDomain
     else ret None) in
  let searchQueries := buildLinkedInFirstQueries URL_pathname fields cName cDomain
                                                 companyLinkedInUrl in
  let* allSearchResults := collect searchQueries cDomain fields in
  let unique := uniqueResults (rankedResults cDomain allSearchResults) in
  if (length unique =? 0)%nat then ret (Some ∅)
  else
    let prioritized := prioritizedResults unique in
    let enrichmentContext :=
      mkEnrichmentContext cName cDomain cDomain companyLinkedInUrl context in
    let* enrichmentResults :=
      call_extract (combinedContent prioritized) fields enrichmentContext in
    let* _ := storeResults enrichmentResults in
    ret None.

Definition execute (context : GeneralAgentContext) (fields : list EnrichmentField)
  : M (gmap string EnrichmentResult) :=
  let cName := resolveCompanyName context in
  let cDomain := resolveCompanyDomain context in
  if negb (JS.truthy_opt cName) && negb (JS.truthy_opt cDomain) then ret ∅
  else
    let* _ := new_results in
    let* early := try_catch (execute_try context fields cName cDomain)
                            (fun _ => ret None) in
    match early with
    | Some r => ret r
    | None => get_results
    end.

End Agent.

Definition ceoField := mkField "ceo" "Chief Executive Officer".

(** ** Specification-side definitions *)

(** The rule table of [extractTitle] as the code has it: the pattern looked
    for in the name, the pattern looked for in the description (if any), and
    the label. *)
Definition titleRules : list (string * option string * string) :=
  [ ("ceo", Some "chief executive", "CEO");
    ("cto", Some "chief technology", "CTO");
    ("cfo", Some "chief financial", "CFO");
    ("coo", Some "chief operating", "COO");
    ("cmo", Some "chief marketing", "CMO");
    ("cpo", Some "chief product", "CPO");
    ("founder", None, "founder");
    ("president", None, "president") ].

Definition ruleFires (field : EnrichmentField) (rule : string * option string * string) : bool :=
  let '(namePattern, descPattern, _) := rule in
  JS.includes (JS.toLowerCase (name field)) namePattern
  || match descPattern with
     | Some p => JS.includes (JS.toLowerCase (description field)) p
     | None => false
     end.

Definition firstRuleTitle (field : EnrichmentField) : string :=
  match List.find (ruleFires field) titleRules with
  | Some (_, _, label) => label
  | None => name field
  end.

(** [canonicalTitle] as the specification words it: one pattern per rule,
    looked for in the name or in the description. *)
Definition describedRules : list (string * string) :=
  [ ("ceo", "CEO"); ("cto", "CTO"); ("cfo", "CFO"); ("coo", "COO");
    ("cmo", "CMO"); ("cpo", "CPO"); ("founder", "founder"); ("president", "president") ].

Definition canonicalTitle_described (field : EnrichmentField) : string :=
  match List.find (fun rule =>
                     JS.includes (JS.toLowerCase (name field)) (fst rule)
                     || JS.includes (JS.toLowerCase (description field)) (fst rule))
                  describedRules with
  | Some (_, label) => label
  | None => name field
  end.

Definition canonicalLabels : list string :=
  ["CEO"; "CTO"; "CFO"; "COO"; "CMO"; "CPO"; "founder"; "president"].

(** The path of a company page: [company], then a non-empty segment. *)
Definition companyPath (parts : list string) : Prop :=
  exists seg rest, seg <> EmptyString /\ parts = "company" :: seg :: rest.

(** The scenario of the specification. *)
Definition acmeAnchor : string := "https://linkedin.com/company/acme-corp".

Definition acmeQueries : list string :=
  [ "site:linkedin.com/in " +:+ JS.dq +:+ "acme corp" +:+ JS.dq +:+ " CEO";
    "site:linkedin.com/in " +:+ JS.dq +:+ "Acme Corp" +:+ JS.dq +:+ " CEO";
    "site:linkedin.com/in " +:+ JS.dq +:+ "CEO" +:+ JS.dq +:+ " "
      +:+ JS.dq +:+ "Acme Corp" +:+ JS.dq +:+ " current";
    "site:linkedin.com/in " +:+ JS.dq +:+ "Acme Corp" +:+ JS.dq +:+ " leadership team";
    "site:linkedin.com/in " +:+ JS.dq +:+ "Acme Corp" +:+ JS.dq +:+ " executives";
    "site:acme.com team leadership about executives";
    "site:acme.com about-us";
    JS.dq +:+ "Acme Corp" +:+ JS.dq +:+ " CEO 2025" ].

(** *** The collector's collaborators, answer by answer *)

Section Answers.

Context {W : Type} {EnrichmentResult : Type}.
Variable tools : @GeneralAgentTools W EnrichmentResult.

(** What the search collaborator answers to the queries, asked in turn. *)
Fixpoint searchAnswers (queries : list string) (w : W)
  : list (Exn + list SearchResult) * W :=
  match queries with
  | [] => ([], w)
  | query :: rest =>
      let '(o, w1) := search tools query 3 w in
      let '(os, w2) := searchAnswers rest w1 in
      (o :: os, w2)
  end.

(** What one answer adds to the evidence: nothing when the call failed. *)
Definition contribution (o : Exn + list SearchResult) : list SearchResult :=
  match o with inr rs => rs | inl _ => [] end.

(** A fetch is usable when it succeeds with non-empty rendered content. *)
Definition usable (o : Exn + ScrapeResult) : bool :=
  match o with
  | inr scraped => success scraped && JS.truthy_opt (scraped_markdown scraped)
  | inl _ => false
  end.

(** The fetches made for the pages, in turn, up to and including the first
    usable one. *)
Fixpoint scrapeAttempts (pageUrls : list string) (w : W)
  : list (string * (Exn + ScrapeResult)) * W :=
  match pageUrls with
  | [] => ([], w)
  | pageUrl :: rest =>
      let '(o, w1) := scrape tools pageUrl w in
      if usable o then ([(pageUrl, o)], w1)
      else let '(os, w2) := scrapeAttempts rest w1 in ((pageUrl, o) :: os, w2)
  end.

(** The record a fetch adds to the evidence. *)
Definition pushedBy (attempt : string * (Exn + ScrapeResult)) : list SearchResult :=
  match snd attempt with
  | inr scraped =>
      if usable (inr scraped) then [leadershipRecord (fst attempt) scraped] else []
  | inl _ => []
  end.

End Answers.

(** *** The ranker, in terms of keys *)

(** The comparator of [execute] orders by this key: a profile or company
    page of the network first, a page of the company's own site first among
    equals. *)
Definition tier (cDomain : option string) (r : SearchResult) : nat :=
  (if isLinkedInProfile r then 0 else 2) + (if isCompanySite cDomain r then 0 else 1).

Definition tierBound : nat := 4.

(** The key of the final arrangement: network-hosted records first, then by
    [tier]. *)
Definition rankKey (cDomain : option string) (r : SearchResult) : nat :=
  (if onLinkedIn r then 0 else tierBound) + tier cDomain r.

Definition rankOrder (cDomain : option string) (a b : SearchResult) : Prop :=
  (rankKey cDomain a <= rankKey cDomain b)%nat.

(** The elements of key [k], [k+1], ..., [k+n-1], bucket after bucket. *)
Fixpoint buckets_from {A} (key : A -> nat) (k n : nat) (l : list A) : list A :=
  match n with
  | O => []
  | S n' => List.filter (fun a => (key a =? k)%nat) l ++ buckets_from key (S k) n' l
  end.

(** The distinct URLs of a list, each at its first occurrence. *)
Fixpoint keep_first (urls : list string) : list string :=
  match urls with
  | [] => []
  | u :: rest => u :: List.filter (fun v => negb (String.eqb v u)) (keep_first rest)
  end.

(** The last record of [l] with the URL [u]. *)
Definition lastWithUrl (u : string) (l : list SearchResult) : option SearchResult :=
  List.find (fun r => String.eqb (url r) u) (rev l).

(** Deduplication as the specification words it: for each URL the record at
    its earliest position survives, content included. *)
Fixpoint dedup_first_wins (l : list SearchResult) : list SearchResult :=
  match l with
  | [] => []
  | r :: rest =>
      r :: List.filter (fun r' => negb (String.eqb (url r') (url r))) (dedup_first_wins rest)
  end.

(** A record known by its URL only. *)
Definition recordAt (u : string) : SearchResult := mkSearchResult u None None None.

(** Two records of one page, fetched twice with different content. *)
Definition aboutOld : SearchResult :=
  mkSearchResult "https://acme.com/about" (Some "About") (Some "Jane Doe, CEO") None.
Definition aboutNew : SearchResult :=
  mkSearchResult "https://acme.com/about" (Some "About us") (Some "John Roe, CEO") None.

(** *** A sample world

    Collaborators for the scenarios: the world counts the calls made; the
    anchor search finds the company page, every "executives" query is
    refused, every other query finds one page; no page can be fetched; the
    extraction engine is down. *)
Definition acmeContext : GeneralAgentContext :=
  mkContext (Some "Acme Corp") None (Some (mkEmailContext (Some "acme.com") None)).

Definition sampleTools : @GeneralAgentTools nat string :=
  mkTools
    (fun query limit w =>
       (if JS.includes query "site:linkedin.com/company"
        then inr [mkSearchResult acmeAnchor (Some "Acme Corp | LinkedIn") None None]
        else if JS.includes query "executives" then inl "search refused"
        else inr [mkSearchResult "https://acme.com/press" None (Some "Press room") None],
        S w))
    (fun pageUrl w => (inl "fetch timed out", S w))
    (fun evidence fields ctx w => (inl "engine down", S w)).

Definition sampleState : @AgentState nat string := mkState 0%nat [] ∅.

(** *** Further specification-side definitions *)

(** The comparator of one sort by [rankKey]. *)
Definition compareRankKey (cDomain : option string) (a b : SearchResult) : Z :=
  (Z.of_nat (rankKey cDomain a) - Z.of_nat (rankKey cDomain b))%Z.

Definition rankKeyBound : nat := 8.

(** Every character of [s] passes [p]. *)
Fixpoint all_chars (p : ascii -> bool) (s : string) : bool :=
  match s with
  | EmptyString => true
  | String c s' => p c && all_chars p s'
  end.

(** A word character that is not an upper-case letter: [a-z0-9_]. *)
Definition is_keyword_char (c : ascii) : bool := JS.is_word c && negb (JS.is_upper c).

Definition not_hyphen (c : ascii) : bool := negb (Ascii.eqb c "-").

(** A field no executive keyword occurs in. *)
Definition revenueField : EnrichmentField :=
  mkField "Revenue" "What is the company's annual revenue, this year?".

(** The query of the anchor resolver. *)
Definition anchorQuery (cName : string) : string :=
  "site:linkedin.com/company " +:+ JS.dq +:+ cName +:+ JS.dq.

(** The test of the resolver's first choice: a page of the company namespace
    whose URL holds the hyphenated company name, case apart. *)
Definition namesCompany (cName : string) (r : SearchResult) : bool :=
  JS.includes (url r) "linkedin.com/company"
  && JS.includes (JS.toLowerCase (url r)) (JS.spaces_to_hyphen (JS.toLowerCase cName)).

(** The mapping after the entries with a value have been stored in [m], one
    after the other. *)
Definition storedResults {EnrichmentResult : Type} (has_value : EnrichmentResult -> bool)
    (entries : list (string * EnrichmentResult)) (m : gmap string EnrichmentResult)
  : gmap string EnrichmentResult :=
  fold_left (fun m e => if has_value (snd e) then <[fst e := snd e]> m else m) entries m.

(** A call that is not a call of the extraction engine. *)
Definition notExtract (c : Call) : Prop :=
  match c with CallExtract _ _ _ => False | _ => True end.

(** A world in which nothing is found: every search is refused, every fetch
    answers without content; the extraction engine would answer. *)
Definition barrenTools : @GeneralAgentTools nat string :=
  mkTools
    (fun query limit w => (inl "search refused", S w))
    (fun pageUrl w => (inr (mkScrapeResult true None None), S w))
    (fun evidence fields ctx w => (inr [("ceo", "Jane Doe")], S w)).

(** A world in which the engine answers: one page is found per query, no page
    can be fetched, the engine names a founder and leaves the CEO empty. *)
Definition answeringTools : @GeneralAgentTools nat string :=
  mkTools
    (fun query limit w =>
       (inr [mkSearchResult "https://acme.com/press" None (Some "Press room") None], S w))
    (fun pageUrl w => (inl "fetch timed out", S w))
    (fun evidence fields ctx w =>
       (inr [("ceo", EmptyString); ("founder", "Jane Doe")], S w)).

(** * Properties *)

(** ** Field classifier *)

Lemma extractTitle_first_rule field : extractTitle field = firstRuleTitle field.
Proof.
  unfold extractTitle, firstRuleTitle, titleRules, ruleFires; simpl.
  repeat match goal with
         | |- context [if ?c || ?d then _ else _] => destruct (c || d); [reflexivity|]
         | |- context [JS.includes ?a ?b || false] =>
             rewrite (orb_false_r (JS.includes a b)); destruct (JS.includes a b); [reflexivity|]
         end.
  reflexivity.
Qed.

(** C7 (as amended).  [extractTitle] answers the label of the first rule that
    fires, in the order CEO, CTO, CFO, COO, CMO, CPO, founder, president, and
    the field's name when none does.  A C-suite rule fires when its acronym
    occurs in the lower-cased name or its long form ("chief executive", ...)
    occurs in the lower-cased description; the founder and president rules
    look at the name only. *)
Theorem extractTitle_ordered_rules (field : EnrichmentField) :
  extractTitle field =
    match List.find (ruleFires field) titleRules with
    | Some (_, _, label) => label
    | None => name field
    end
  /\ map (fun rule => snd rule) titleRules = canonicalLabels.
Proof. split; [apply extractTitle_first_rule | reflexivity]. Qed.

(** C7 (as stated) fails: "founder" occurs in the description of this field,
    so the described rule would answer [founder]; the code looks for it in the
    name only and answers the name. *)
Lemma extractTitle_not_as_described :
  extractTitle (mkField "lead" "Company founder") = "lead"
  /\ canonicalTitle_described (mkField "lead" "Company founder") = "founder"
  /\ ~ (forall field, extractTitle field = canonicalTitle_described field).
Proof.
  split; [reflexivity|]. split; [reflexivity|].
  intros H. specialize (H (mkField "lead" "Company founder")). discriminate H.
Qed.

Lemma extractTitle_label_or_name field :
  In (extractTitle field) canonicalLabels \/ extractTitle field = name field.
Proof.
  unfold extractTitle, canonicalLabels.
  repeat match goal with
         | |- context [if ?c then _ else _] => destruct c; [left; simpl; tauto|]
         end.
  now right.
Qed.

(** C8 (as amended).  [extractTitle] is a total function answering a canonical
    label or the field's own name; the answer is non-empty whenever the name
    is. *)
Theorem extractTitle_total_nonempty (field : EnrichmentField) :
  (In (extractTitle field) canonicalLabels \/ extractTitle field = name field)
  /\ (name field <> EmptyString -> extractTitle field <> EmptyString).
Proof.
  split; [apply extractTitle_label_or_name|].
  intros Hname Hempty.
  destruct (extractTitle_label_or_name field) as [Hin | Heq].
  - rewrite Hempty in Hin. simpl in Hin.
    repeat (destruct Hin as [Hin | Hin]; [discriminate Hin|]). exact Hin.
  - congruence.
Qed.

Lemma extractTitle_total_nonempty_witness :
  name ceoField <> EmptyString /\ extractTitle ceoField <> EmptyString.
Proof.
  assert (H : name ceoField <> EmptyString) by discriminate.
  split; [exact H | exact (proj2 (extractTitle_total_nonempty ceoField) H)].
Defined.

(** C8 (as stated) fails: an executive field with an empty name and a
    description no title rule knows gets the empty title. *)
Lemma extractTitle_empty_name :
  isExecutiveField (mkField EmptyString "Board director") = true
  /\ extractTitle (mkField EmptyString "Board director") = EmptyString.
Proof. split; reflexivity. Qed.

(** ** Query synthesizer *)

(** C6.  In the scenario the synthesizer answers the eight queries of
    [acmeQueries]: the first two are individual-profile queries scoped to
    "acme corp" and "Acme Corp" with the title CEO, a domain-scoped "about-us"
    query is present, and the last-resort query ends with the literal 2025,
    whatever the year is: read in 2026, it does not hold the current year. *)
Theorem scenario_queries_literal_year (URL_pathname : string -> option string) :
  URL_pathname acmeAnchor = Some "/company/acme-corp" ->
  let queries :=
    buildLinkedInFirstQueries URL_pathname [ceoField] (Some "Acme Corp") (Some "acme.com")
                              (Some acmeAnchor) in
  queries = acmeQueries
  /\ In ("site:acme.com about-us") queries
  /\ List.last queries EmptyString = JS.dq +:+ "Acme Corp" +:+ JS.dq +:+ " CEO 2025"
  /\ JS.includes (List.last queries EmptyString) "2026" = false.
Proof.
  intros Hpath.
  assert (Hq : buildLinkedInFirstQueries URL_pathname [ceoField] (Some "Acme Corp")
                 (Some "acme.com") (Some acmeAnchor) = acmeQueries).
  { cbv beta iota zeta delta [buildLinkedInFirstQueries extractLinkedInCompanyName].
    rewrite Hpath. vm_compute. reflexivity. }
  cbv zeta. rewrite Hq. vm_compute. repeat split; tauto.
Qed.

Lemma scenario_queries_literal_year_witness :
  PlainURL.pathname acmeAnchor = Some "/company/acme-corp"
  /\ List.last (buildLinkedInFirstQueries PlainURL.pathname [ceoField] (Some "Acme Corp")
                  (Some "acme.com") (Some acmeAnchor)) EmptyString
     = JS.dq +:+ "Acme Corp" +:+ JS.dq +:+ " CEO 2025".
Proof.
  assert (H : PlainURL.pathname acmeAnchor = Some "/company/acme-corp") by reflexivity.
  split; [exact H|].
  exact (proj1 (proj2 (proj2 (scenario_queries_literal_year PlainURL.pathname H)))).
Defined.

(** The older synthesizer of the same class does read the clock for its
    recency marker. *)
Lemma buildSearchQueries_reads_the_year (year : string) :
  List.last (buildSearchQueries year [ceoField] (Some "Acme Corp") (Some "acme.com"))
            EmptyString
  = JS.dq +:+ "Acme Corp" +:+ JS.dq +:+ " news announcement " +:+ year.
Proof. reflexivity. Qed.

Lemma existsb_filter_nonempty {A} (p : A -> bool) (l : list A) :
  existsb p l = true -> (0 <? length (List.filter p l))%nat = true.
Proof.
  induction l as [|x l IH]; simpl; [discriminate|].
  destruct (p x); simpl; [reflexivity | exact IH].
Qed.

Lemma extractLinkedInCompanyName_no_company (URL_pathname : string -> option string) anchor :
  (forall p, URL_pathname anchor = Some p -> ~ companyPath (pathParts p)) ->
  extractLinkedInCompanyName URL_pathname anchor = EmptyString.
Proof.
  intros Hno. unfold extractLinkedInCompanyName.
  destruct (URL_pathname anchor) as [p|] eqn:Hp; [|reflexivity].
  specialize (Hno p eq_refl).
  destruct (pathParts p) as [|p0 [|p1 rest]]; try reflexivity.
  destruct (String.eqb p0 "company") eqn:Hp0; [|reflexivity].
  destruct p1 as [|c p1]; [reflexivity|].
  exfalso. apply Hno. exists (String c p1), rest.
  apply String.eqb_eq in Hp0. subst p0. split; [discriminate | reflexivity].
Qed.

(** C10.  When the anchor URL does not parse, or its path does not start
    with [company] and a non-empty segment, [extractLinkedInCompanyName]
    answers the empty string; the anchor tier (an anchor is present and some
    field is an executive one) then still emits its first query, with an
    empty quoted company name. *)
Theorem anchor_without_company_name
    (URL_pathname : string -> option string)
    (fields : list EnrichmentField) (cName cDomain : option string) (anchor : string) :
  (forall p, URL_pathname anchor = Some p -> ~ companyPath (pathParts p)) ->
  extractLinkedInCompanyName URL_pathname anchor = EmptyString
  /\ (anchor <> EmptyString -> hasExecutiveFields fields = true ->
      exists rest,
        buildLinkedInFirstQueries URL_pathname fields cName cDomain (Some anchor)
        = ("site:linkedin.com/in " +:+ JS.dq +:+ JS.dq +:+ " "
             +:+ JS.join " OR " (executiveTitlesOf fields)) :: rest).
Proof.
  intros Hno.
  pose proof (extractLinkedInCompanyName_no_company URL_pathname anchor Hno) as Hempty.
  split; [exact Hempty|].
  intros Hanchor Hexec.
  unfold buildLinkedInFirstQueries.
  rewrite (existsb_filter_nonempty _ _ Hexec), Hempty.
  destruct anchor as [|c anchor]; [congruence|]. simpl JS.truthy. cbv iota.
  eexists. rewrite <- !app_assoc. simpl. reflexivity.
Qed.

Lemma anchor_without_company_name_witness :
  extractLinkedInCompanyName PlainURL.pathname "linkedin.com/company/acme" = EmptyString
  /\ exists rest,
       buildLinkedInFirstQueries PlainURL.pathname [ceoField] (Some "Acme Corp")
                                 (Some "acme.com") (Some "linkedin.com/company/acme")
       = ("site:linkedin.com/in " +:+ JS.dq +:+ JS.dq +:+ " CEO") :: rest.
Proof.
  assert (Hno : forall p, PlainURL.pathname "linkedin.com/company/acme" = Some p ->
                          ~ companyPath (pathParts p)) by (intros p Hp; discriminate Hp).
  pose proof (anchor_without_company_name PlainURL.pathname [ceoField] (Some "Acme Corp")
                (Some "acme.com") "linkedin.com/company/acme" Hno) as [Hempty Hfirst].
  split; [exact Hempty|].
  apply Hfirst; [discriminate | reflexivity].
Defined.

(** ** Collector and orchestration *)

Section AgentProperties.

Context {W : Type} {EnrichmentResult : Type}.
Variable has_value : EnrichmentResult -> bool.
Variable URL_pathname : string -> option string.
Variable tools : @GeneralAgentTools W EnrichmentResult.

Local Abbreviation State := (@AgentState W EnrichmentResult).

(** Unfolding one monadic step. *)
Ltac step :=
  unfold bind, try_catch, ret, call_search, call_scrape, call_extract,
         set_result, get_results, new_results; simpl.

Lemma execute_short_circuit context fields (st : State) :
  JS.truthy_opt (resolveCompanyName context) = false ->
  JS.truthy_opt (resolveCompanyDomain context) = false ->
  execute has_value URL_pathname tools context fields st = (inr ∅, st).
Proof. intros Hn Hd. unfold execute. rewrite Hn, Hd. reflexivity. Qed.

(** C1.  With no company name in [context.companyName],
    [context.discoveredData.companyName] or
    [context.emailContext.companyNameGuess], and no
    [context.emailContext.companyDomain], [execute] answers the empty
    mapping and leaves the state as it found it: the world untouched, no
    call to [search], [scrape] or [extractStructuredData] recorded. *)
Theorem execute_without_identity context fields (st : State) :
  companyName context = None ->
  discoveredData context ≫= (fun d => d !! "companyName") = None ->
  emailContext context ≫= companyNameGuess = None ->
  emailContext context ≫= companyDomain = None ->
  execute has_value URL_pathname tools context fields st = (inr ∅, st)
  /\ calls (snd (execute has_value URL_pathname tools context fields st)) = calls st.
Proof.
  intros H1 H2 H3 H4.
  assert (E : execute has_value URL_pathname tools context fields st = (inr ∅, st)).
  { apply execute_short_circuit.
    - unfold resolveCompanyName. rewrite H1, H2, H3. reflexivity.
    - unfold resolveCompanyDomain. rewrite H4. reflexivity. }
  rewrite E. split; reflexivity.
Qed.

(** C2.  [execute] never throws: it always returns a mapping.  When the
    body of its [try] block throws, in whatever state [s1], the error stops
    at the one top-level [catch] and [execute] returns the [results] object
    as it stands in [s1]. *)
Theorem execute_never_raises context fields (st : State) :
  (exists r st', execute has_value URL_pathname tools context fields st = (inr r, st'))
  /\ (forall e s1,
        negb (JS.truthy_opt (resolveCompanyName context))
        && negb (JS.truthy_opt (resolveCompanyDomain context)) = false ->
        execute_try has_value URL_pathname tools context fields
                    (resolveCompanyName context) (resolveCompanyDomain context)
                    (mkState (world st) (calls st) ∅) = (inl e, s1) ->
        execute has_value URL_pathname tools context fields st = (inr (results s1), s1)).
Proof.
  split.
  - unfold execute.
    destruct (negb _ && negb _); [eexists _, _; reflexivity|].
    step.
    destruct (execute_try _ _ _ _ _ _ _ _) as [[e | [r|]] s1]; simpl;
      eexists _, _; reflexivity.
  - intros e s1 Hid Htry. unfold execute. rewrite Hid. step.
    rewrite Htry. reflexivity.
Qed.

(** *** The anchor resolver *)

(** The resolver never throws, and an anchor it finds is a URL of the
    network's company namespace, so a non-empty one. *)
Lemma findCompanyLinkedInPage_fail_soft cName cDomain (st : State) :
  exists anchor st',
    findCompanyLinkedInPage tools cName cDomain st = (inr anchor, st')
    /\ forall u, anchor = Some u ->
                 JS.includes u "linkedin.com/company" = true /\ u <> EmptyString.
Proof.
  assert (Hne : forall u, JS.includes u "linkedin.com/company" = true ->
                          JS.includes u "linkedin.com/company" = true /\ u <> EmptyString).
  { intros u Hu. split; [exact Hu|]. intros ->. discriminate Hu. }
  unfold findCompanyLinkedInPage. step.
  destruct (search tools _ 5 (world st)) as [[e | rs] w1]; simpl.
  - eexists _, _. split; [reflexivity | discriminate].
  - destruct (length rs =? 0)%nat; [eexists _, _; split; [reflexivity | discriminate]|].
    destruct (List.filter _ rs) as [|page pages] eqn:Hf.
    + destruct (List.find _ rs) as [page|] eqn:Hfind.
      * eexists _, _. split; [reflexivity|]. intros u [= <-].
        apply find_some in Hfind as [_ Hu]. now apply Hne.
      * eexists _, _. split; [reflexivity | discriminate].
    + eexists _, _. split; [reflexivity|]. intros u [= <-].
      assert (Hin : In page (page :: pages)) by now left.
      rewrite <- Hf in Hin. apply filter_In in Hin as [_ Hu].
      apply andb_true_iff in Hu as [Hu _]. now apply Hne.
Qed.

(** *** The collector *)

Lemma searchAll_answers queries acc (st : State) :
  searchAll tools queries acc st
  = (inr (acc ++ flat_map contribution (fst (searchAnswers tools queries (world st)))),
     mkState (snd (searchAnswers tools queries (world st)))
             (calls st ++ map (fun q => CallSearch q 3) queries)
             (results st)).
Proof.
  revert acc st. induction queries as [|q qs IH]; intros acc st.
  - simpl. unfold ret. rewrite !app_nil_r. destruct st; reflexivity.
  - simpl. step.
    destruct (search tools q 3 (world st)) as [[e | rs] w1] eqn:Hs; simpl;
      rewrite IH; simpl;
      destruct (searchAnswers tools qs w1) as [os w2]; simpl;
      rewrite <- ?app_assoc; simpl; try reflexivity.
    destruct rs as [|r rs]; simpl; rewrite ?app_nil_r, <- ?app_assoc; reflexivity.
Qed.

Lemma pushedBy_unusable u (o : Exn + ScrapeResult) :
  usable o = false -> pushedBy (u, o) = [].
Proof. unfold pushedBy, usable; simpl. destruct o; [reflexivity|]. now intros ->. Qed.

Lemma pushedBy_usable u scraped :
  usable (inr scraped) = true -> pushedBy (u, inr scraped) = [leadershipRecord u scraped].
Proof. unfold pushedBy, usable; simpl. now intros ->. Qed.

Lemma scrapePages_attempts pageUrls acc (st : State) :
  scrapePages tools pageUrls acc st
  = (inr (acc ++ flat_map pushedBy (fst (scrapeAttempts tools pageUrls (world st)))),
     mkState (snd (scrapeAttempts tools pageUrls (world st)))
             (calls st ++ map (fun a => CallScrape (fst a))
                              (fst (scrapeAttempts tools pageUrls (world st))))
             (results st)).
Proof.
  revert acc st. induction pageUrls as [|u us IH]; intros acc st.
  - simpl. unfold ret. rewrite !app_nil_r. destruct st; reflexivity.
  - simpl. step.
    destruct (scrape tools u (world st)) as [[e | scraped] w1] eqn:Hs; simpl.
    + rewrite IH; simpl.
      destruct (scrapeAttempts tools us w1) as [os w2]; simpl.
      rewrite <- ?app_assoc. reflexivity.
    + destruct (success scraped && JS.truthy_opt (scraped_markdown scraped)) eqn:Hu; simpl.
      * rewrite (pushedBy_usable u scraped Hu). reflexivity.
      * rewrite IH; simpl.
        destruct (scrapeAttempts tools us w1) as [os w2]; simpl.
        rewrite (pushedBy_unusable u (inr scraped) Hu).
        rewrite <- ?app_assoc. reflexivity.
Qed.

(** The fetches are made in the order of the pages, and only the last one
    can be usable. *)
Lemma scrapeAttempts_prefix pageUrls (w : W) :
  exists rest, pageUrls = map fst (fst (scrapeAttempts tools pageUrls w)) ++ rest.
Proof.
  revert w. induction pageUrls as [|u us IH]; intros w; simpl.
  - exists []. reflexivity.
  - destruct (scrape tools u w) as [o w1].
    destruct (usable o).
    + exists us. reflexivity.
    + destruct (IH w1) as [rest Hrest].
      destruct (scrapeAttempts tools us w1) as [os w2]; simpl in *.
      exists rest. congruence.
Qed.

Lemma scrapeAttempts_all_fail pageUrls (w : W) :
  forallb (fun a => negb (usable (snd a))) (fst (scrapeAttempts tools pageUrls w)) = true ->
  map fst (fst (scrapeAttempts tools pageUrls w)) = pageUrls
  /\ flat_map pushedBy (fst (scrapeAttempts tools pageUrls w)) = [].
Proof.
  revert w. induction pageUrls as [|u us IH]; intros w; simpl; [intros _; split; reflexivity|].
  destruct (scrape tools u w) as [o w1].
  destruct (usable o) eqn:Hu; simpl; [rewrite Hu; discriminate|].
  specialize (IH w1).
  destruct (scrapeAttempts tools us w1) as [os w2]; simpl in *.
  rewrite Hu; simpl. intros Hall. destruct (IH Hall) as [Hm Hp].
  split; [congruence|].
  rewrite (pushedBy_unusable u o Hu). exact Hp.
Qed.

Lemma scrapeAttempts_first_usable pageUrls (w : W) i a :
  fst (scrapeAttempts tools pageUrls w) !! i = Some a ->
  usable (snd a) = true ->
  S i = length (fst (scrapeAttempts tools pageUrls w))
  /\ exists scraped,
       snd a = inr scraped
       /\ flat_map pushedBy (fst (scrapeAttempts tools pageUrls w))
          = [leadershipRecord (fst a) scraped].
Proof.
  revert w i. induction pageUrls as [|u us IH]; intros w i; simpl; [discriminate|].
  destruct (scrape tools u w) as [o w1].
  destruct (usable o) eqn:Hu; simpl.
  - destruct i as [|i]; simpl; [|discriminate].
    intros [= <-] _. split; [reflexivity|].
    destruct o as [e|scraped]; [discriminate Hu|].
    exists scraped. split; [reflexivity|].
    rewrite (pushedBy_usable u scraped Hu). reflexivity.
  - specialize (IH w1).
    destruct (scrapeAttempts tools us w1) as [os w2]; simpl in *.
    destruct i as [|i]; simpl.
    + intros [= <-]. simpl. congruence.
    + intros Hi Ha. destruct (IH i Hi Ha) as [Hlen [scraped [Hs Hp]]].
      split; [congruence|]. exists scraped. split; [exact Hs|].
      rewrite (pushedBy_unusable u o Hu). exact Hp.
Qed.

(** C9.  The collector never throws.  Every query is searched once, in
    order, and a failed search adds nothing.  With a domain and an executive
    field, the pages [/about], [/team], [/leadership] are fetched in that
    order up to the first usable answer (success with non-empty rendered
    content), which is appended under the title "Company Leadership Page";
    when no fetch is usable, all three were tried and the answer is exactly
    the search-derived records. *)
Theorem collect_fail_soft queries cDomain fields (st : State) :
  let answers := searchAnswers tools queries (world st) in
  let searched := flat_map contribution (fst answers) in
  let pages :=
    if JS.truthy_opt cDomain && hasExecutiveFields fields
    then leadershipPages (JS.show cDomain) else [] in
  let attempts := scrapeAttempts tools pages (snd answers) in
  collect tools queries cDomain fields st
  = (inr (searched ++ flat_map pushedBy (fst attempts)),
     mkState (snd attempts)
             (calls st ++ map (fun q => CallSearch q 3) queries
                       ++ map (fun a => CallScrape (fst a)) (fst attempts))
             (results st))
  /\ (exists rest, pages = map fst (fst attempts) ++ rest)
  /\ (forall i a,
        fst attempts !! i = Some a -> usable (snd a) = true ->
        S i = length (fst attempts)
        /\ exists scraped,
             snd a = inr scraped
             /\ title (leadershipRecord (fst a) scraped) = Some "Company Leadership Page"
             /\ flat_map pushedBy (fst attempts) = [leadershipRecord (fst a) scraped])
  /\ (forallb (fun a => negb (usable (snd a))) (fst attempts) = true ->
      map fst (fst attempts) = pages
      /\ fst (collect tools queries cDomain fields st) = inr searched).
Proof.
  cbv zeta.
  set (pages := if JS.truthy_opt cDomain && hasExecutiveFields fields
                then leadershipPages (JS.show cDomain) else []).
  assert (Hcollect :
    collect tools queries cDomain fields st
    = (inr (flat_map contribution (fst (searchAnswers tools queries (world st)))
            ++ flat_map pushedBy
                 (fst (scrapeAttempts tools pages
                         (snd (searchAnswers tools queries (world st)))))),
       mkState (snd (scrapeAttempts tools pages
                       (snd (searchAnswers tools queries (world st)))))
               (calls st ++ map (fun q => CallSearch q 3) queries
                  ++ map (fun a => CallScrape (fst a))
                       (fst (scrapeAttempts tools pages
                               (snd (searchAnswers tools queries (world st))))))
               (results st))).
  { unfold collect, bind. rewrite searchAll_answers. cbv beta iota. subst pages.
    destruct (JS.truthy_opt cDomain && hasExecutiveFields fields).
    - unfold try_catch. rewrite scrapePages_attempts. cbn [world calls results app].
      rewrite <- app_assoc. reflexivity.
    - unfold ret. simpl. rewrite !app_nil_r. reflexivity. }
  split; [exact Hcollect|].
  split; [apply scrapeAttempts_prefix|].
  split.
  - intros i a Hi Ha.
    destruct (scrapeAttempts_first_usable _ _ _ _ Hi Ha) as [Hlen [scraped [Hs Hp]]].
    split; [exact Hlen|]. exists scraped. repeat split; assumption.
  - intros Hall.
    destruct (scrapeAttempts_all_fail _ _ Hall) as [Hm Hp].
    split; [exact Hm|]. rewrite Hcollect. simpl. rewrite Hp, app_nil_r. reflexivity.
Qed.

End AgentProperties.

(** No name and no domain anywhere in the context: nothing is called. *)
Lemma execute_without_identity_witness :
  execute (fun v => JS.truthy v) PlainURL.pathname sampleTools
          (mkContext None (Some ∅) (Some (mkEmailContext None None))) [ceoField] sampleState
  = (inr ∅, sampleState).
Proof.
  exact (proj1 (execute_without_identity (fun v => JS.truthy v) PlainURL.pathname sampleTools
                  (mkContext None (Some ∅) (Some (mkEmailContext None None))) [ceoField]
                  sampleState eq_refl eq_refl eq_refl eq_refl)).
Defined.

(** The scenario of C9: executive field, domain [acme.com], the three
    fetches fail; the collector answers the search-derived records. *)
Lemma collect_fail_soft_witness :
  fst (collect sampleTools acmeQueries (Some "acme.com") [ceoField] sampleState)
  = inr (flat_map contribution (fst (searchAnswers sampleTools acmeQueries 0%nat)))
  /\ length (flat_map contribution (fst (searchAnswers sampleTools acmeQueries 0%nat))) = 6%nat.
Proof.
  split; [|reflexivity].
  apply (proj2 (proj2 (proj2
           (collect_fail_soft sampleTools acmeQueries (Some "acme.com") [ceoField]
                              sampleState)))).
  reflexivity.
Defined.

(** The extraction engine fails: [execute] answers the (empty) [results]. *)
Lemma execute_never_raises_witness :
  exists s1,
    execute (fun v => JS.truthy v) PlainURL.pathname sampleTools acmeContext [ceoField]
            sampleState = (inr (results s1), s1)
    /\ results s1 = ∅
    /\ length (calls s1) = 13%nat.
Proof.
  destruct (execute_try (fun v => JS.truthy v) PlainURL.pathname sampleTools acmeContext
              [ceoField] (resolveCompanyName acmeContext) (resolveCompanyDomain acmeContext)
              (mkState (world sampleState) (calls sampleState) ∅))
    as [[e | r] s1] eqn:Htry.
  - exists s1. split.
    + exact (proj2 (execute_never_raises (fun v => JS.truthy v) PlainURL.pathname
                      sampleTools acmeContext [ceoField] sampleState) e s1 eq_refl Htry).
    + vm_compute in Htry. injection Htry as _ <-. split; reflexivity.
  - vm_compute in Htry. discriminate Htry.
Defined.

(** ** Platform containers *)

Section SortFacts.

Context {A : Type}.
Variable compareFn : A -> A -> Z.
Variable key : A -> nat.

(** The comparator compares keys. *)
Hypothesis compare_key :
  forall a b, (compareFn a b <=? 0)%Z = (key a <=? key b)%nat.

Local Abbreviation sorted := (StronglySorted (fun a b => (key a <= key b)%nat)).

Lemma sort_insert_perm x l : Permutation (sort_insert compareFn x l) (x :: l).
Proof.
  induction l as [|y l IH]; simpl; [reflexivity|].
  destruct (compareFn x y <=? 0)%Z; [reflexivity|].
  rewrite IH. apply perm_swap.
Qed.

Lemma Array_sort_perm l : Permutation (Array_sort compareFn l) l.
Proof.
  induction l as [|x l IH]; simpl; [reflexivity|].
  rewrite sort_insert_perm. now apply perm_skip.
Qed.

Lemma sort_insert_front x l :
  Forall (fun y => (key x <= key y)%nat) l -> sort_insert compareFn x l = x :: l.
Proof.
  destruct l as [|y l]; simpl; [reflexivity|].
  intros H. inversion H as [|? ? Hy _]; subst.
  rewrite compare_key. apply Nat.leb_le in Hy. now rewrite Hy.
Qed.

Lemma sort_insert_after x l1 l2 :
  Forall (fun y => (key y < key x)%nat) l1 ->
  sort_insert compareFn x (l1 ++ l2) = l1 ++ sort_insert compareFn x l2.
Proof.
  induction 1 as [|y l1 Hy _ IH]; simpl; [reflexivity|].
  rewrite compare_key.
  destruct (Nat.leb_spec (key x) (key y)) as [Hle|_]; [lia|].
  now rewrite IH.
Qed.

(** A sorted array is left as it is. *)
Lemma Array_sort_sorted_id l : sorted l -> Array_sort compareFn l = l.
Proof.
  induction 1 as [|x l _ IH Hx]; simpl; [reflexivity|].
  rewrite IH. now apply sort_insert_front.
Qed.

Lemma sort_insert_sorted x l : sorted l -> sorted (sort_insert compareFn x l).
Proof.
  induction 1 as [|y l Hl IH Hy]; simpl.
  - repeat constructor.
  - rewrite compare_key.
    destruct (Nat.leb_spec (key x) (key y)) as [Hle|Hlt].
    + constructor; [now constructor|].
      constructor; [exact Hle|].
      eapply List.Forall_impl; [|exact Hy]. simpl; intros; lia.
    + constructor; [exact IH|].
      eapply Permutation_Forall; [symmetry; apply sort_insert_perm|].
      constructor; [lia | exact Hy].
Qed.

Lemma Array_sort_sorted l : sorted (Array_sort compareFn l).
Proof.
  induction l as [|x l IH]; simpl; [constructor | now apply sort_insert_sorted].
Qed.

(** *** The sorted arrangement, bucket by bucket *)

Lemma buckets_from_above k n l :
  Forall (fun y => (k <= key y)%nat) (buckets_from key k n l).
Proof.
  revert k. induction n as [|n IH]; intros k; simpl; [constructor|].
  apply Forall_app. split.
  - apply List.Forall_forall. intros y Hy. apply filter_In in Hy as [_ Hy].
    apply Nat.eqb_eq in Hy. lia.
  - eapply List.Forall_impl; [|apply IH]. simpl; intros; lia.
Qed.

Lemma buckets_from_skip k n x l :
  (key x < k)%nat -> buckets_from key k n (x :: l) = buckets_from key k n l.
Proof.
  revert k. induction n as [|n IH]; intros k Hx; simpl; [reflexivity|].
  destruct (Nat.eqb_spec (key x) k) as [Hk|_]; [lia|].
  rewrite IH by lia. reflexivity.
Qed.

Lemma sort_insert_buckets k n x l :
  (k <= key x < k + n)%nat ->
  sort_insert compareFn x (buckets_from key k n l) = buckets_from key k n (x :: l).
Proof.
  revert k. induction n as [|n IH]; intros k Hx; simpl; [lia|].
  destruct (Nat.eqb_spec (key x) k) as [Hk|Hk].
  - rewrite buckets_from_skip by lia.
    apply sort_insert_front. apply Forall_app. split.
    + apply List.Forall_forall. intros y Hy. apply filter_In in Hy as [_ Hy].
      apply Nat.eqb_eq in Hy. lia.
    + eapply List.Forall_impl; [|apply buckets_from_above]. simpl; intros; lia.
  - rewrite sort_insert_after.
    + rewrite IH by lia. reflexivity.
    + apply List.Forall_forall. intros y Hy. apply filter_In in Hy as [_ Hy].
      apply Nat.eqb_eq in Hy. lia.
Qed.

Lemma Array_sort_buckets n l :
  Forall (fun a => (key a < n)%nat) l ->
  Array_sort compareFn l = buckets_from key 0 n l.
Proof.
  induction 1 as [|x l Hx _ IH]; simpl.
  - clear. generalize 0%nat. induction n as [|n IH]; intros k; simpl; [reflexivity|apply IH].
  - rewrite IH. apply sort_insert_buckets. lia.
Qed.

Lemma filter_comm (p q : A -> bool) l :
  List.filter p (List.filter q l) = List.filter q (List.filter p l).
Proof.
  induction l as [|x l IH]; simpl; [reflexivity|].
  destruct (p x) eqn:Hp, (q x) eqn:Hq; simpl; rewrite ?Hp, ?Hq, IH; reflexivity.
Qed.

Lemma filter_buckets p k n l :
  List.filter p (buckets_from key k n l) = buckets_from key k n (List.filter p l).
Proof.
  revert k. induction n as [|n IH]; intros k; simpl; [reflexivity|].
  rewrite List.filter_app, IH, filter_comm. reflexivity.
Qed.

(** Sorting commutes with filtering: the sort is stable. *)
Lemma Array_sort_filter n p l :
  Forall (fun a => (key a < n)%nat) l ->
  List.filter p (Array_sort compareFn l) = Array_sort compareFn (List.filter p l).
Proof.
  intros Hn.
  rewrite (Array_sort_buckets n l Hn), filter_buckets.
  symmetry. apply Array_sort_buckets.
  apply List.Forall_forall. intros a Ha. apply filter_In in Ha as [Ha _].
  rewrite List.Forall_forall in Hn. now apply Hn.
Qed.

End SortFacts.

Section ListFacts.

Context {A : Type}.

Lemma filter_partition_perm (p : A -> bool) l :
  Permutation (List.filter p l ++ List.filter (fun a => negb (p a)) l) l.
Proof.
  induction l as [|x l IH]; simpl; [reflexivity|].
  destruct (p x); simpl.
  - now apply perm_skip.
  - rewrite <- Permutation_middle. now apply perm_skip.
Qed.

Lemma filter_all (p : A -> bool) l :
  Forall (fun a => p a = true) l -> List.filter p l = l.
Proof. induction 1 as [|x l Hx _ IH]; simpl; [reflexivity|]. now rewrite Hx, IH. Qed.

Lemma filter_none (p : A -> bool) l :
  Forall (fun a => p a = false) l -> List.filter p l = [].
Proof. induction 1 as [|x l Hx _ IH]; simpl; [reflexivity|]. now rewrite Hx. Qed.

Lemma sorted_filter (R : A -> A -> Prop) (p : A -> bool) l :
  StronglySorted R l -> StronglySorted R (List.filter p l).
Proof.
  induction 1 as [|x l _ IH Hx]; simpl; [constructor|].
  destruct (p x); [|exact IH].
  constructor; [exact IH|].
  apply List.Forall_forall. intros y Hy. apply filter_In in Hy as [Hy _].
  rewrite List.Forall_forall in Hx. now apply Hx.
Qed.

Lemma sorted_firstn (R : A -> A -> Prop) n l :
  StronglySorted R l -> StronglySorted R (firstn n l).
Proof.
  intros H. rewrite <- (firstn_skipn n l) in H.
  now apply StronglySorted_app_1_l in H.
Qed.

(** A sorted list seen through another order that agrees with it on the
    elements of the list. *)
Lemma sorted_among (R R' : A -> A -> Prop) (P : A -> Prop) l :
  (forall a b, P a -> P b -> R a b -> R' a b) ->
  Forall P l -> StronglySorted R l -> StronglySorted R' l.
Proof.
  intros HR HP. induction 1 as [|x l _ IH Hx]; [constructor|].
  inversion HP as [|? ? Px Pl]; subst.
  constructor; [now apply IH|].
  rewrite List.Forall_forall in *. intros y Hy. apply HR; auto.
Qed.

Lemma sorted_lookup (R : A -> A -> Prop) (l : list A) i j a b :
  StronglySorted R l -> l !! i = Some a -> l !! j = Some b -> (i < j)%nat -> R a b.
Proof.
  intros Hs. revert i j. induction Hs as [|x l _ IH Hx]; intros i j Hi Hj Hlt.
  - discriminate Hi.
  - destruct j as [|j]; [lia|]. simpl in Hj.
    destruct i as [|i]; simpl in Hi.
    + injection Hi as <-. rewrite List.Forall_forall in Hx. apply Hx.
      apply list_elem_of_In. eapply list_elem_of_lookup_2; eassumption.
    + apply (IH i j); auto. lia.
Qed.

Lemma sorted_map_iff {B} (f : A -> B) (R : B -> B -> Prop) l :
  StronglySorted (fun a b => R (f a) (f b)) l <-> StronglySorted R (map f l).
Proof.
  induction l as [|x l IH]; simpl; [split; constructor|].
  split; intros H; apply StronglySorted_inv in H as [Hl Hx].
  - constructor; [exact (proj1 IH Hl)|]. apply (proj2 (List.Forall_map f _ l)). exact Hx.
  - constructor; [exact (proj2 IH Hl)|]. exact (proj1 (List.Forall_map f _ l) Hx).
Qed.

End ListFacts.

Section KeepFirstFacts.

Lemma in_keep_first u urls : In u (keep_first urls) <-> In u urls.
Proof.
  induction urls as [|a urls IH]; simpl; [tauto|].
  rewrite filter_In, IH.
  destruct (String.eqb_spec u a) as [->|Hne]; simpl; intuition congruence.
Qed.

Lemma NoDup_keep_first urls : List.NoDup (keep_first urls).
Proof.
  induction urls as [|a urls IH]; simpl; constructor.
  - intros H. apply filter_In in H as [_ H]. now rewrite String.eqb_refl in H.
  - now apply List.NoDup_filter.
Qed.

Lemma keep_first_snoc u urls :
  keep_first (urls ++ [u])
  = keep_first urls ++ (if in_dec string_dec u urls then [] else [u]).
Proof.
  induction urls as [|a urls IH]; simpl; [reflexivity|].
  rewrite IH, List.filter_app. f_equal. f_equal.
  destruct (in_dec string_dec u urls) as [Hin|Hin];
    destruct (string_dec a u) as [Hau|Hau]; simpl;
    destruct (String.eqb_spec u a) as [Hua|Hua]; simpl;
    try reflexivity; try congruence;
    destruct (in_dec string_dec u urls); try reflexivity; tauto.
Qed.

Lemma sorted_keep_first (R : string -> string -> Prop) urls :
  StronglySorted R urls -> StronglySorted R (keep_first urls).
Proof.
  induction 1 as [|a urls _ IH Ha]; simpl; [constructor|].
  constructor; [now apply sorted_filter|].
  apply List.Forall_forall. intros v Hv.
  apply filter_In in Hv as [Hv _]. apply (proj1 (in_keep_first _ _)) in Hv.
  rewrite List.Forall_forall in Ha. now apply Ha.
Qed.

End KeepFirstFacts.

Section MapFacts.

Context {V : Type}.
Implicit Types (m : list (string * V)).

Lemma Map_set_fresh k v m :
  ~ In k (map fst m) -> Map_set k v m = m ++ [(k, v)].
Proof.
  induction m as [|[k' v'] m IH]; simpl; [reflexivity|].
  intros Hk. destruct (String.eqb_spec k' k) as [->|_]; [tauto|].
  rewrite IH by tauto. reflexivity.
Qed.

Lemma Map_set_known_keys k v m :
  In k (map fst m) -> map fst (Map_set k v m) = map fst m.
Proof.
  induction m as [|[k' v'] m IH]; simpl; [tauto|].
  intros Hk. destruct (String.eqb_spec k' k) as [->|Hne]; simpl; [reflexivity|].
  rewrite IH; [reflexivity|]. destruct Hk; [contradiction | assumption].
Qed.

(** After a [set], an entry is the new one or an old one under another
    key. *)
Lemma Map_set_entry k v m e :
  List.NoDup (map fst m) -> In e (Map_set k v m) ->
  e = (k, v) \/ (In e m /\ fst e <> k).
Proof.
  induction m as [|[k' v'] m IH]; simpl.
  - intros _ [<-|[]]. now left.
  - intros Hnd. apply List.NoDup_cons_iff in Hnd as [Hk' Hnd].
    destruct (String.eqb_spec k' k) as [->|Hne]; simpl.
    + intros [<-|He]; [now left|]. right. split; [now right|].
      intros <-. apply Hk'. now apply in_map.
    + intros [<-|He]; [right; split; [now left | exact Hne]|].
      destruct (IH Hnd He) as [->|[Hin Hk]]; [now left | right; split; [now right | exact Hk]].
Qed.

Lemma Map_of_entries_snoc (entries : list (string * V)) e :
  Map_of_entries (entries ++ [e]) = Map_set (fst e) (snd e) (Map_of_entries entries).
Proof. unfold Map_of_entries. now rewrite fold_left_app. Qed.

End MapFacts.

(** ** Evidence ranker *)

Section DedupFacts.

Local Abbreviation entriesOf l :=
  (Map_of_entries (map (fun r : SearchResult => (url r, r)) l)).

Lemma entriesOf_snoc l r : entriesOf (l ++ [r]) = Map_set (url r) r (entriesOf l).
Proof. rewrite map_app. exact (Map_of_entries_snoc _ (url r, r)). Qed.

Lemma entriesOf_keys l : map fst (entriesOf l) = keep_first (map url l).
Proof.
  induction l as [|r l IH] using rev_ind; [reflexivity|].
  rewrite entriesOf_snoc, map_app. simpl map. rewrite keep_first_snoc.
  destruct (in_dec string_dec (url r) (map url l)) as [Hin|Hin].
  - rewrite app_nil_r, <- IH. apply Map_set_known_keys.
    rewrite IH. now apply in_keep_first.
  - rewrite Map_set_fresh, map_app, IH; [reflexivity|].
    rewrite IH. now rewrite in_keep_first.
Qed.

Lemma lastWithUrl_snoc u l r :
  lastWithUrl u (l ++ [r]) = if String.eqb (url r) u then Some r else lastWithUrl u l.
Proof. unfold lastWithUrl. now rewrite rev_unit. Qed.

Lemma lastWithUrl_some u l r : lastWithUrl u l = Some r -> In r l /\ url r = u.
Proof.
  unfold lastWithUrl. intros H. apply find_some in H as [Hin Hu].
  split; [now apply in_rev | now apply String.eqb_eq].
Qed.

(** Every entry of the map holds the last record of its URL. *)
Lemma entriesOf_values l :
  Forall (fun e => lastWithUrl (fst e) l = Some (snd e)) (entriesOf l).
Proof.
  induction l as [|r l IH] using rev_ind; [constructor|].
  rewrite entriesOf_snoc. apply List.Forall_forall. intros e He.
  apply Map_set_entry in He.
  - rewrite lastWithUrl_snoc. destruct He as [->|[Hin Hne]]; simpl.
    + now rewrite String.eqb_refl.
    + destruct (String.eqb_spec (url r) (fst e)) as [Heq|_]; [congruence|].
      rewrite List.Forall_forall in IH. now apply IH.
  - rewrite entriesOf_keys. apply NoDup_keep_first.
Qed.

(** The deduplicated list: the distinct URLs in the order of their first
    occurrence, each with the last record that has it. *)
Lemma uniqueResults_first_place_last_value l :
  map Some (uniqueResults l)
  = map (fun u => lastWithUrl u l) (keep_first (map url l)).
Proof.
  unfold uniqueResults, Map_values.
  rewrite <- entriesOf_keys, !map_map.
  apply map_ext_Forall.
  eapply List.Forall_impl; [|apply entriesOf_values]. simpl. intros e He. now rewrite He.
Qed.

Lemma uniqueResults_urls l : map url (uniqueResults l) = keep_first (map url l).
Proof.
  unfold uniqueResults, Map_values.
  rewrite <- entriesOf_keys, !map_map.
  apply map_ext_Forall.
  eapply List.Forall_impl; [|apply entriesOf_values]. simpl. intros e He.
  now apply lastWithUrl_some in He.
Qed.

Lemma uniqueResults_In l r : In r (uniqueResults l) -> In r l.
Proof.
  unfold uniqueResults, Map_values. intros H.
  apply in_map_iff in H as [e [<- He]].
  pose proof (entriesOf_values l) as Hv. rewrite List.Forall_forall in Hv.
  now apply Hv, lastWithUrl_some in He.
Qed.

Lemma uniqueResults_NoDup l : List.NoDup (map url (uniqueResults l)).
Proof. rewrite uniqueResults_urls. apply NoDup_keep_first. Qed.

Lemma uniqueResults_url_iff l u :
  In u (map url (uniqueResults l)) <-> In u (map url l).
Proof. rewrite uniqueResults_urls. apply in_keep_first. Qed.

(** A list without a repeated URL is left as it is. *)
Lemma uniqueResults_NoDup_id l : List.NoDup (map url l) -> uniqueResults l = l.
Proof.
  intros Hnd. unfold uniqueResults, Map_values.
  assert (H : entriesOf l = map (fun r => (url r, r)) l).
  { induction l as [|r l IH] using rev_ind; [reflexivity|].
    rewrite map_app in Hnd. simpl in Hnd.
    apply NoDup_remove in Hnd as [Hnd Hr]. rewrite app_nil_r in Hnd, Hr.
    rewrite entriesOf_snoc, IH by exact Hnd.
    rewrite Map_set_fresh, map_app; [reflexivity|].
    now rewrite map_map, (map_ext _ url). }
  rewrite H, map_map. simpl. apply map_id.
Qed.

End DedupFacts.

Lemma prefix_app_l p q s : String.prefix (p +:+ q) s = true -> String.prefix p s = true.
Proof.
  revert s. induction p as [|a p IH]; intros [|b s]; simpl; try reflexivity; try discriminate.
  destruct (ascii_dec a b); [apply IH | discriminate].
Qed.

(** A string that holds [p ++ q] holds [p]. *)
Lemma includes_app_l s p q : JS.includes s (p +:+ q) = true -> JS.includes s p = true.
Proof.
  induction s as [|c s IH]; cbn [JS.includes].
  - rewrite !orb_false_r. apply prefix_app_l.
  - intros H. apply orb_true_iff in H as [H|H]; apply orb_true_iff.
    + left. exact (prefix_app_l p q (String c s) H).
    + right. now apply IH.
Qed.

Section RankFacts.

Variable cDomain : option string.

Local Abbreviation tierOrder :=
  (fun a b : SearchResult => (tier cDomain a <= tier cDomain b)%nat).

Lemma compare_tier a b :
  (compareResults cDomain a b <=? 0)%Z = (tier cDomain a <=? tier cDomain b)%nat.
Proof.
  unfold compareResults, tier.
  destruct (isLinkedInProfile a), (isLinkedInProfile b),
           (isCompanySite cDomain a), (isCompanySite cDomain b); reflexivity.
Qed.

Lemma tier_bound r : (tier cDomain r < tierBound)%nat.
Proof.
  unfold tier, tierBound.
  destruct (isLinkedInProfile r), (isCompanySite cDomain r); simpl; lia.
Qed.

Lemma tier_bounded l : Forall (fun r => (tier cDomain r < tierBound)%nat) l.
Proof. apply List.Forall_forall. intros r _. apply tier_bound. Qed.

Lemma isLinkedInProfile_onLinkedIn r :
  isLinkedInProfile r = true -> onLinkedIn r = true.
Proof.
  unfold isLinkedInProfile, onLinkedIn. intros H.
  apply orb_true_iff in H as [H|H].
  - exact (includes_app_l (url r) "linkedin.com" "/in" H).
  - exact (includes_app_l (url r) "linkedin.com" "/company" H).
Qed.

Lemma rankKey_network r : onLinkedIn r = true -> rankKey cDomain r = tier cDomain r.
Proof. unfold rankKey. now intros ->. Qed.

Lemma rankKey_other r :
  onLinkedIn r = false -> rankKey cDomain r = (tierBound + tier cDomain r)%nat.
Proof. unfold rankKey. now intros ->. Qed.

(** *** The three stages *)

Lemma rankedResults_sorted l : StronglySorted tierOrder (rankedResults cDomain l).
Proof. apply (Array_sort_sorted _ _ compare_tier). Qed.

Lemma rankedResults_perm l : Permutation (rankedResults cDomain l) l.
Proof. apply Array_sort_perm. Qed.

Lemma uniqueResults_sorted l :
  StronglySorted tierOrder l -> StronglySorted tierOrder (uniqueResults l).
Proof.
  intros H.
  change (StronglySorted
            (fun a b => (fun u v => (tier cDomain (recordAt u) <= tier cDomain (recordAt v))%nat)
                          (url a) (url b)) (uniqueResults l)).
  apply sorted_map_iff. rewrite uniqueResults_urls.
  apply sorted_keep_first. apply -> (sorted_map_iff url). exact H.
Qed.

Lemma network_part_sorted l :
  StronglySorted tierOrder l ->
  StronglySorted (rankOrder cDomain) (List.filter onLinkedIn l).
Proof.
  intros H.
  apply (sorted_among tierOrder _ (fun r => onLinkedIn r = true)).
  - intros a b Ha Hb. unfold rankOrder. now rewrite !rankKey_network.
  - apply List.Forall_forall. intros r Hr. now apply filter_In in Hr.
  - now apply sorted_filter.
Qed.

Lemma other_part_sorted l :
  StronglySorted tierOrder l ->
  StronglySorted (rankOrder cDomain) (List.filter (fun r => negb (onLinkedIn r)) l).
Proof.
  intros H.
  apply (sorted_among tierOrder _ (fun r => onLinkedIn r = false)).
  - intros a b Ha Hb. unfold rankOrder. rewrite !rankKey_other by assumption. lia.
  - apply List.Forall_forall. intros r Hr. apply filter_In in Hr as [_ Hr].
    now apply negb_true_iff.
  - now apply sorted_filter.
Qed.

Lemma prioritizedResults_sorted l :
  StronglySorted tierOrder l -> StronglySorted (rankOrder cDomain) (prioritizedResults l).
Proof.
  intros H. unfold prioritizedResults. apply sorted_firstn.
  apply StronglySorted_app_2.
  - intros a b Ha Hb. apply list_elem_of_In, filter_In in Ha as [_ Ha].
    apply list_elem_of_In, filter_In in Hb as [_ Hb]. apply negb_true_iff in Hb.
    unfold rankOrder. rewrite (rankKey_network a Ha), (rankKey_other b Hb).
    pose proof (tier_bound a). lia.
  - now apply network_part_sorted.
  - now apply other_part_sorted.
Qed.

(** The ranker's answer is sorted by [rankKey]. *)
Lemma rank_sorted l : StronglySorted (rankOrder cDomain) (rank cDomain l).
Proof.
  unfold rank. apply prioritizedResults_sorted, uniqueResults_sorted, rankedResults_sorted.
Qed.

Lemma prioritizedResults_NoDup l :
  List.NoDup (map url l) -> List.NoDup (map url (prioritizedResults l)).
Proof.
  intros H. unfold prioritizedResults.
  set (arranged := List.filter onLinkedIn l ++ List.filter (fun r => negb (onLinkedIn r)) l).
  assert (Ha : List.NoDup (map url arranged)).
  { eapply Permutation_NoDup; [|exact H].
    apply Permutation_map. symmetry. apply filter_partition_perm. }
  rewrite <- (firstn_skipn 10 arranged), map_app in Ha.
  now apply NoDup_app_remove_r in Ha.
Qed.

Lemma rank_NoDup l : List.NoDup (map url (rank cDomain l)).
Proof. apply prioritizedResults_NoDup, uniqueResults_NoDup. Qed.

Lemma rank_length l : (length (rank cDomain l) <= 10)%nat.
Proof. unfold rank, prioritizedResults. apply firstn_le_length. Qed.

(** A list sorted by [rankKey] has its network-hosted records in front. *)
Lemma network_first_split l :
  StronglySorted (rankOrder cDomain) l ->
  List.filter onLinkedIn l ++ List.filter (fun r => negb (onLinkedIn r)) l = l.
Proof.
  induction 1 as [|x l _ IH Hx]; simpl; [reflexivity|].
  destruct (onLinkedIn x) eqn:Hn; simpl; [now rewrite IH|].
  assert (Hl : Forall (fun r => onLinkedIn r = false) l).
  { eapply List.Forall_impl; [|exact Hx]. simpl. intros r Hr.
    destruct (onLinkedIn r) eqn:Hrn; [|reflexivity].
    unfold rankOrder in Hr. rewrite (rankKey_other x Hn), (rankKey_network r Hrn) in Hr.
    pose proof (tier_bound r). lia. }
  rewrite (filter_none _ _ Hl). simpl. f_equal. apply filter_all.
  eapply List.Forall_impl; [|exact Hl]. simpl. now intros r ->.
Qed.

Lemma network_part_tier_sorted l :
  StronglySorted (rankOrder cDomain) l ->
  StronglySorted tierOrder (List.filter onLinkedIn l).
Proof.
  intros H.
  apply (sorted_among (rankOrder cDomain) _ (fun r => onLinkedIn r = true)).
  - intros a b Ha Hb. unfold rankOrder. now rewrite !rankKey_network.
  - apply List.Forall_forall. intros r Hr. now apply filter_In in Hr.
  - now apply sorted_filter.
Qed.

Lemma other_part_tier_sorted l :
  StronglySorted (rankOrder cDomain) l ->
  StronglySorted tierOrder (List.filter (fun r => negb (onLinkedIn r)) l).
Proof.
  intros H.
  apply (sorted_among (rankOrder cDomain) _ (fun r => onLinkedIn r = false)).
  - intros a b Ha Hb. unfold rankOrder. rewrite !rankKey_other by assumption. lia.
  - apply List.Forall_forall. intros r Hr. apply filter_In in Hr as [_ Hr].
    now apply negb_true_iff.
  - now apply sorted_filter.
Qed.

(** An already-ranked list (sorted by [rankKey], no URL twice, at most ten
    records) is a fixed point of the ranker. *)
Lemma rank_fixed_point l :
  StronglySorted (rankOrder cDomain) l ->
  List.NoDup (map url l) ->
  (length l <= 10)%nat ->
  rank cDomain l = l.
Proof.
  intros Hs Hnd Hlen. unfold rank, rankedResults.
  rewrite uniqueResults_NoDup_id.
  2:{ eapply Permutation_NoDup; [|exact Hnd].
      apply Permutation_map. symmetry. apply Array_sort_perm. }
  unfold prioritizedResults.
  rewrite !(Array_sort_filter _ _ compare_tier tierBound) by apply tier_bounded.
  rewrite (Array_sort_sorted_id _ _ compare_tier) by now apply network_part_tier_sorted.
  rewrite (Array_sort_sorted_id _ _ compare_tier) by now apply other_part_tier_sorted.
  rewrite network_first_split by exact Hs.
  now apply firstn_all2.
Qed.

End RankFacts.

Lemma rank_network_first cDomain l i j a b :
  rank cDomain l !! i = Some a -> rank cDomain l !! j = Some b ->
  (rankKey cDomain a < rankKey cDomain b)%nat -> (i < j)%nat.
Proof.
  intros Hi Hj Hlt.
  destruct (Nat.lt_trichotomy i j) as [H|[->|H]]; [exact H | |].
  - rewrite Hi in Hj. injection Hj as ->. lia.
  - pose proof (sorted_lookup _ _ _ _ _ _ (rank_sorted cDomain l) Hj Hi H) as Hle.
    unfold rankOrder in Hle. lia.
Qed.

(** C3.  Whatever the collected records and their order: after
    deduplication every URL of the input has exactly one record; the evidence
    kept for extraction is the first ten of the deduplicated records,
    network-hosted ones in front, so it has no URL twice, only URLs of the
    input, every one of them when there are at most ten, and at most ten
    records; and in it a record on the professional network ([linkedin.com],
    and likewise a profile or company page of it) comes before every record
    that is not. *)
Theorem ranked_evidence_invariants (cDomain : option string) (l : list SearchResult) :
  let unique := uniqueResults (rankedResults cDomain l) in
  let kept := rank cDomain l in
  (forall u, In u (map url l) -> count_occ string_dec (map url unique) u = 1%nat)
  /\ List.NoDup (map url kept)
  /\ (forall u, In u (map url kept) -> In u (map url l))
  /\ ((length unique <= 10)%nat ->
      forall u, In u (map url l) -> count_occ string_dec (map url kept) u = 1%nat)
  /\ (length kept <= 10)%nat
  /\ (forall i j a b,
        kept !! i = Some a -> kept !! j = Some b ->
        onLinkedIn a = true -> onLinkedIn b = false -> (i < j)%nat)
  /\ (forall i j a b,
        kept !! i = Some a -> kept !! j = Some b ->
        isLinkedInProfile a = true -> isLinkedInProfile b = false -> (i < j)%nat).
Proof.
  cbv zeta.
  assert (Hurls : forall u, In u (map url (uniqueResults (rankedResults cDomain l)))
                            <-> In u (map url l)).
  { intros u. rewrite uniqueResults_url_iff.
    split; apply Permutation_in, Permutation_map;
      [|symmetry]; apply rankedResults_perm. }
  assert (Hperm : Permutation
                    (List.filter onLinkedIn (uniqueResults (rankedResults cDomain l))
                     ++ List.filter (fun r => negb (onLinkedIn r))
                          (uniqueResults (rankedResults cDomain l)))
                    (uniqueResults (rankedResults cDomain l)))
    by apply filter_partition_perm.
  split; [|split; [|split; [|split; [|split; [|split]]]]].
  - intros u Hu. apply NoDup_count_occ'; [apply uniqueResults_NoDup | now apply Hurls].
  - apply rank_NoDup.
  - intros u Hu. apply Hurls. unfold rank, prioritizedResults in Hu.
    apply in_map_iff in Hu as [r [<- Hr]]. apply in_map.
    eapply Permutation_in; [exact Hperm|].
    rewrite <- (firstn_skipn 10 (_ ++ _)). apply in_or_app. now left.
  - intros Hlen u Hu. apply NoDup_count_occ'; [apply rank_NoDup|].
    unfold rank, prioritizedResults. rewrite firstn_all2.
    + eapply Permutation_in; [apply Permutation_map; symmetry; exact Hperm|].
      now apply Hurls.
    + now rewrite (Permutation_length Hperm).
  - apply rank_length.
  - intros i j a b Hi Hj Ha Hb. apply (rank_network_first cDomain l i j a b Hi Hj).
    rewrite (rankKey_network cDomain a Ha), (rankKey_other cDomain b Hb).
    pose proof (tier_bound cDomain a). lia.
  - intros i j a b Hi Hj Ha Hb. apply (rank_network_first cDomain l i j a b Hi Hj).
    rewrite (rankKey_network cDomain a (isLinkedInProfile_onLinkedIn a Ha)).
    unfold rankKey, tier, tierBound. rewrite Ha, Hb.
    destruct (onLinkedIn b), (isCompanySite cDomain a), (isCompanySite cDomain b);
      simpl; lia.
Qed.

(** C4 (as amended).  Deduplication keeps one record per distinct URL at the
    place of the URL's first occurrence in the ranked order, as keeping the
    first record would; the record kept there is the last one of the ranked
    order with that URL. *)
Theorem dedup_first_place_last_content (cDomain : option string) (l : list SearchResult) :
  let ranked := rankedResults cDomain l in
  map url (uniqueResults ranked) = map url (dedup_first_wins ranked)
  /\ map url (uniqueResults ranked) = keep_first (map url ranked)
  /\ map Some (uniqueResults ranked)
     = map (fun u => lastWithUrl u ranked) (keep_first (map url ranked)).
Proof.
  cbv zeta. generalize (rankedResults cDomain l) as ranked. intros ranked.
  split; [|split].
  - rewrite uniqueResults_urls. clear.
    induction ranked as [|r ranked IH]; simpl; [reflexivity|].
    f_equal. rewrite IH. clear.
    induction (dedup_first_wins ranked) as [|x xs IH]; simpl; [reflexivity|].
    destruct (String.eqb (url x) (url r)); simpl; now rewrite IH.
  - apply uniqueResults_urls.
  - apply uniqueResults_first_place_last_value.
Qed.

(** C4 (as stated) fails: of two records of one URL the later one is kept,
    not the first. *)
Lemma dedup_keeps_last_content :
  rankedResults (Some "acme.com") [aboutOld; aboutNew] = [aboutOld; aboutNew]
  /\ uniqueResults (rankedResults (Some "acme.com") [aboutOld; aboutNew]) = [aboutNew]
  /\ dedup_first_wins (rankedResults (Some "acme.com") [aboutOld; aboutNew]) = [aboutOld]
  /\ markdown aboutNew <> markdown aboutOld.
Proof. repeat split; try reflexivity. discriminate. Qed.

(** C5.  The ranker is idempotent: its answer is sorted by [rankKey], has
    no URL twice and at most ten records, and ranking such a list returns it
    unchanged. *)
Theorem rank_idempotent (cDomain : option string) (l : list SearchResult) :
  rank cDomain (rank cDomain l) = rank cDomain l.
Proof.
  apply rank_fixed_point; [apply rank_sorted | apply rank_NoDup | apply rank_length].
Qed.

(** Being sorted by the comparator alone is not enough to be left unchanged:
    a network page that is neither a profile nor a company page is moved in
    front of the company's own site. *)
Example rank_moves_network_pages_forward :
  rankedResults (Some "acme.com")
    [recordAt "https://acme.com/team"; recordAt "https://linkedin.com/jobs/1"]
  = [recordAt "https://acme.com/team"; recordAt "https://linkedin.com/jobs/1"]
  /\ rank (Some "acme.com")
       [recordAt "https://acme.com/team"; recordAt "https://linkedin.com/jobs/1"]
     = [recordAt "https://linkedin.com/jobs/1"; recordAt "https://acme.com/team"].
Proof. split; reflexivity. Qed.


(** * Further properties *)

(** ** Evidence ranker: what is kept, and in which order *)

Section BucketFacts.

Context {A : Type}.

Lemma filter_andb (p q : A -> bool) l :
  List.filter (fun a => p a && q a) l = List.filter q (List.filter p l).
Proof.
  induction l as [|x l IH]; simpl; [reflexivity|].
  destruct (p x); simpl; [destruct (q x)|]; now rewrite IH.
Qed.

Lemma buckets_from_add (key : A -> nat) k n m l :
  buckets_from key k (n + m) l
  = buckets_from key k n l ++ buckets_from key (k + n) m l.
Proof.
  revert k. induction n as [|n IH]; intros k; simpl.
  - now rewrite Nat.add_0_r.
  - rewrite IH, <- app_assoc. do 3 f_equal. lia.
Qed.

(** The buckets of a key that, on [j + c], is another key on [j] among the
    elements passing [p]. *)
Lemma buckets_from_through (key1 key2 : A -> nat) (p : A -> bool) c k n l :
  (forall a j, (k <= j < k + n)%nat ->
               (key2 a =? j + c)%nat = p a && (key1 a =? j)%nat) ->
  buckets_from key2 (k + c) n l = buckets_from key1 k n (List.filter p l).
Proof.
  revert k. induction n as [|n IH]; intros k H; simpl; [reflexivity|].
  rewrite <- filter_andb.
  rewrite (List.filter_ext (fun a => (key2 a =? k + c)%nat)
                           (fun a => p a && (key1 a =? k)%nat)) by (intros a; apply H; lia).
  f_equal. apply (IH (S k)). intros a j Hj. apply H. lia.
Qed.

Lemma map_filter_agree {B} (f : A -> B) (p : A -> bool) (q : B -> bool) l :
  Forall (fun a => q (f a) = p a) l ->
  map f (List.filter p l) = List.filter q (map f l).
Proof.
  induction 1 as [|x l Hx _ IH]; simpl; [reflexivity|].
  rewrite Hx. destruct (p x); simpl; now rewrite IH.
Qed.

End BucketFacts.

Section MapMoreFacts.

Context {V : Type}.
Implicit Types (m : list (string * V)).

Lemma Map_set_app_fresh k v m1 m2 :
  ~ In k (map fst m1) -> Map_set k v (m1 ++ m2) = m1 ++ Map_set k v m2.
Proof.
  induction m1 as [|[k' v'] m1 IH]; simpl; [reflexivity|].
  intros Hk. destruct (String.eqb_spec k' k) as [->|_]; [tauto|].
  rewrite IH by tauto. reflexivity.
Qed.

Lemma Map_set_filter_in (pu : string -> bool) k v m :
  pu k = true ->
  List.filter (fun e => pu (fst e)) (Map_set k v m)
  = Map_set k v (List.filter (fun e => pu (fst e)) m).
Proof.
  intros Hk. induction m as [|[k' v'] m IH]; simpl; [now rewrite Hk|].
  destruct (String.eqb_spec k' k) as [->|Hne]; simpl.
  - rewrite Hk. simpl. now rewrite String.eqb_refl.
  - destruct (pu k'); simpl; [|exact IH].
    destruct (String.eqb_spec k' k) as [|_]; [contradiction|]. now rewrite IH.
Qed.

Lemma Map_set_filter_out (pu : string -> bool) k v m :
  pu k = false ->
  List.filter (fun e => pu (fst e)) (Map_set k v m)
  = List.filter (fun e => pu (fst e)) m.
Proof.
  intros Hk. induction m as [|[k' v'] m IH]; simpl; [now rewrite Hk|].
  destruct (String.eqb_spec k' k) as [->|Hne]; simpl.
  - now rewrite Hk.
  - now rewrite IH.
Qed.

End MapMoreFacts.

Section DedupMoreFacts.

Local Abbreviation entriesOf l :=
  (Map_of_entries (map (fun r : SearchResult => (url r, r)) l)).

Lemma entriesOf_key_is_url l : Forall (fun e => url (snd e) = fst e) (entriesOf l).
Proof.
  eapply List.Forall_impl; [|apply entriesOf_values]. simpl. intros e He.
  now apply lastWithUrl_some in He.
Qed.

Lemma entriesOf_filter (pu : string -> bool) l :
  entriesOf (List.filter (fun r => pu (url r)) l)
  = List.filter (fun e => pu (fst e)) (entriesOf l).
Proof.
  induction l as [|r l IH] using rev_ind; [reflexivity|].
  rewrite List.filter_app, entriesOf_snoc. simpl.
  destruct (pu (url r)) eqn:Hr.
  - rewrite entriesOf_snoc, IH. symmetry. now apply Map_set_filter_in.
  - rewrite app_nil_r, IH. symmetry. now apply Map_set_filter_out.
Qed.

(** Deduplication commutes with a filter on the URL. *)
Lemma uniqueResults_filter (pu : string -> bool) l :
  uniqueResults (List.filter (fun r => pu (url r)) l)
  = List.filter (fun r => pu (url r)) (uniqueResults l).
Proof.
  unfold uniqueResults, Map_values. rewrite entriesOf_filter.
  apply map_filter_agree.
  eapply List.Forall_impl; [|apply entriesOf_key_is_url]. simpl. now intros e ->.
Qed.

Lemma entriesOf_app l1 l2 :
  (forall u, In u (map url l1) -> ~ In u (map url l2)) ->
  entriesOf (l1 ++ l2) = entriesOf l1 ++ entriesOf l2.
Proof.
  induction l2 as [|r l2 IH] using rev_ind; intros Hd.
  - now rewrite !app_nil_r.
  - rewrite app_assoc, !entriesOf_snoc, IH.
    + apply Map_set_app_fresh. rewrite entriesOf_keys, in_keep_first.
      intros Hin. apply (Hd _ Hin). rewrite map_app. apply in_or_app. right. now left.
    + intros u Hu Hu2. apply (Hd u Hu). rewrite map_app. apply in_or_app. now left.
Qed.

(** Deduplication works part by part on parts that share no URL. *)
Lemma uniqueResults_app l1 l2 :
  (forall u, In u (map url l1) -> ~ In u (map url l2)) ->
  uniqueResults (l1 ++ l2) = uniqueResults l1 ++ uniqueResults l2.
Proof.
  intros Hd. unfold uniqueResults, Map_values. now rewrite entriesOf_app, map_app.
Qed.

Lemma uniqueResults_buckets (key : SearchResult -> nat) (ukey : string -> nat) k n l :
  (forall r, key r = ukey (url r)) ->
  uniqueResults (buckets_from key k n l) = buckets_from key k n (uniqueResults l).
Proof.
  intros Hkey. revert k. induction n as [|n IH]; intros k; simpl; [reflexivity|].
  rewrite uniqueResults_app.
  - rewrite IH. f_equal.
    rewrite !(List.filter_ext (fun a => (key a =? k)%nat)
                              (fun r => (ukey (url r) =? k)%nat))
      by (intros a; now rewrite Hkey).
    exact (uniqueResults_filter (fun u => (ukey u =? k)%nat) l).
  - intros u Hu1 Hu2.
    apply in_map_iff in Hu1 as [a [<- Ha]]. apply in_map_iff in Hu2 as [b [Hab Hb]].
    apply filter_In in Ha as [_ Ha]. apply Nat.eqb_eq in Ha.
    pose proof (buckets_from_above key (S k) n l) as Habove.
    rewrite List.Forall_forall in Habove. specialize (Habove b Hb). simpl in Habove.
    rewrite (Hkey a) in Ha. rewrite (Hkey b), Hab in Habove. lia.
Qed.

End DedupMoreFacts.

Section RankMoreFacts.

Variable cDomain : option string.

Lemma rankKey_bound r : (rankKey cDomain r < rankKeyBound)%nat.
Proof.
  unfold rankKey, rankKeyBound, tierBound. pose proof (tier_bound cDomain r) as H.
  unfold tierBound in H. destruct (onLinkedIn r); lia.
Qed.

Lemma compare_rankKey a b :
  (compareRankKey cDomain a b <=? 0)%Z = (rankKey cDomain a <=? rankKey cDomain b)%nat.
Proof.
  unfold compareRankKey.
  destruct (Nat.leb_spec (rankKey cDomain a) (rankKey cDomain b));
    destruct (Z.leb_spec (Z.of_nat (rankKey cDomain a) - Z.of_nat (rankKey cDomain b)) 0);
    try reflexivity; lia.
Qed.

Lemma uniqueResults_sort_comm l :
  uniqueResults (rankedResults cDomain l) = rankedResults cDomain (uniqueResults l).
Proof.
  unfold rankedResults.
  rewrite !(Array_sort_buckets _ _ (compare_tier cDomain) tierBound) by apply tier_bounded.
  now apply (uniqueResults_buckets _ (fun u => tier cDomain (recordAt u))).
Qed.

(** Sorting by the comparator and moving the network-hosted records to the
    front is one stable sort by [rankKey]. *)
Lemma partition_of_sorted_is_one_sort l :
  List.filter onLinkedIn (rankedResults cDomain l)
  ++ List.filter (fun r => negb (onLinkedIn r)) (rankedResults cDomain l)
  = Array_sort (compareRankKey cDomain) l.
Proof.
  unfold rankedResults.
  rewrite (Array_sort_buckets _ _ (compare_tier cDomain) tierBound) by apply tier_bounded.
  rewrite (Array_sort_buckets _ _ compare_rankKey rankKeyBound)
    by (apply List.Forall_forall; intros r _; apply rankKey_bound).
  rewrite !filter_buckets.
  change rankKeyBound with (tierBound + tierBound)%nat.
  rewrite buckets_from_add. f_equal.
  - symmetry. apply (buckets_from_through (tier cDomain) (rankKey cDomain) onLinkedIn 0 0).
    intros a j Hj. unfold rankKey.
    pose proof (tier_bound cDomain a) as Ha. unfold tierBound in *.
    destruct (onLinkedIn a); cbv beta iota; rewrite ?andb_true_l, ?andb_false_l;
      repeat match goal with
             | |- context [(?x =? ?y)%nat] => destruct (Nat.eqb_spec x y)
             end; try reflexivity; lia.
  - symmetry.
    apply (buckets_from_through (tier cDomain) (rankKey cDomain)
             (fun r => negb (onLinkedIn r)) tierBound 0).
    intros a j Hj. unfold rankKey.
    pose proof (tier_bound cDomain a) as Ha. unfold tierBound in *.
    destruct (onLinkedIn a); cbn [negb]; cbv beta iota;
      rewrite ?andb_true_l, ?andb_false_l;
      repeat match goal with
             | |- context [(?x =? ?y)%nat] => destruct (Nat.eqb_spec x y)
             end; try reflexivity; lia.
Qed.

Lemma keep_first_length_perm us vs :
  Permutation us vs -> length (keep_first us) = length (keep_first vs).
Proof.
  intros H. apply Permutation_length, Permutation.NoDup_Permutation;
    try apply NoDup_keep_first.
  intros u. rewrite !in_keep_first. split; apply Permutation_in; [|symmetry]; exact H.
Qed.

Lemma uniqueResults_length l :
  length (uniqueResults (rankedResults cDomain l)) = length (keep_first (map url l)).
Proof.
  rewrite <- (length_map url), uniqueResults_urls.
  apply keep_first_length_perm, Permutation_map, rankedResults_perm.
Qed.

Lemma rank_length_exact l :
  length (rank cDomain l) = Nat.min 10 (length (keep_first (map url l))).
Proof.
  unfold rank, prioritizedResults.
  rewrite length_firstn, (Permutation_length (filter_partition_perm _ _)).
  now rewrite uniqueResults_length.
Qed.

Lemma rank_In l r : In r (rank cDomain l) -> In r l.
Proof.
  unfold rank, prioritizedResults. intros H.
  assert (H' : In r (List.filter onLinkedIn (uniqueResults (rankedResults cDomain l))
                     ++ List.filter (fun r => negb (onLinkedIn r))
                          (uniqueResults (rankedResults cDomain l)))).
  { rewrite <- (firstn_skipn 10 (_ ++ _)). apply in_or_app. now left. }
  apply (Permutation_in _ (filter_partition_perm _ _)) in H'.
  apply uniqueResults_In in H'.
  exact (Permutation_in _ (rankedResults_perm cDomain l) H').
Qed.

Lemma rank_nil_iff l : rank cDomain l = [] <-> l = [].
Proof.
  assert (Hlen : forall x : list SearchResult, x = [] <-> length x = 0%nat)
    by (intros [|? ?]; simpl; split; congruence).
  rewrite (Hlen (rank _ _)), rank_length_exact.
  destruct l; simpl; split; congruence.
Qed.

End RankMoreFacts.

(** X1.  The ranker neither invents nor alters a record: every record it
    keeps is one of the collected records.  It keeps as many records as there
    are distinct URLs, up to ten; so its answer is empty only for an empty
    collection, the one case in which [execute] leaves before extraction. *)
Theorem rank_keeps_collected_records (cDomain : option string) (l : list SearchResult) :
  (forall r, In r (rank cDomain l) -> In r l)
  /\ length (rank cDomain l) = Nat.min 10 (length (keep_first (map url l)))
  /\ (uniqueResults (rankedResults cDomain l) = [] <-> l = [])
  /\ (rank cDomain l = [] <-> l = []).
Proof.
  split; [apply rank_In|]. split; [apply rank_length_exact|].
  assert (Hlen : forall x : list SearchResult, x = [] <-> length x = 0%nat)
    by (intros [|? ?]; simpl; split; congruence).
  split.
  - rewrite (Hlen (uniqueResults _)), uniqueResults_length.
    destruct l; simpl; split; congruence.
  - rewrite (Hlen (rank _ _)), rank_length_exact.
    destruct l; simpl; split; congruence.
Qed.

(** X2.  Deduplication and the trust sort commute, and the whole ranker is
    one stable sort of the deduplicated records by [rankKey] (network-hosted
    first, then profile or company page, then the company's own site), cut to
    the first ten: records of equal key keep the order in which they were
    collected. *)
Theorem rank_is_dedup_then_stable_sort (cDomain : option string) (l : list SearchResult) :
  uniqueResults (rankedResults cDomain l) = rankedResults cDomain (uniqueResults l)
  /\ rank cDomain l = firstn 10 (Array_sort (compareRankKey cDomain) (uniqueResults l)).
Proof.
  split; [apply uniqueResults_sort_comm|].
  unfold rank, prioritizedResults.
  now rewrite uniqueResults_sort_comm, partition_of_sorted_is_one_sort.
Qed.

(** X3.  Truncation gives way to the network: when the kept evidence holds a
    record that is not on [linkedin.com], every [linkedin.com] URL that was
    collected is among the kept ones. *)
Theorem rank_truncation_prefers_network
    (cDomain : option string) (l : list SearchResult) (b : SearchResult) (u : string) :
  In b (rank cDomain l) -> onLinkedIn b = false ->
  In u (map url l) -> JS.includes u "linkedin.com" = true ->
  In u (map url (rank cDomain l)).
Proof.
  intros Hb Hbn Hu Hun. unfold rank, prioritizedResults in *.
  set (unique := uniqueResults (rankedResults cDomain l)) in *.
  rewrite firstn_app in *.
  assert (Hall : firstn 10 (List.filter onLinkedIn unique) = List.filter onLinkedIn unique).
  { apply in_app_or in Hb as [Hb|Hb].
    - exfalso. assert (Hin : In b (List.filter onLinkedIn unique)).
      { rewrite <- (firstn_skipn 10 (List.filter _ _)). apply in_or_app. now left. }
      apply filter_In in Hin as [_ Hin]. congruence.
    - apply firstn_all2.
      destruct (10 - length (List.filter onLinkedIn unique))%nat eqn:Hd; [destruct Hb|]. lia. }
  rewrite Hall, map_app. apply in_or_app. left.
  assert (Hin : In u (map url unique)).
  { subst unique. apply uniqueResults_url_iff.
    eapply Permutation_in; [apply Permutation_map; symmetry; apply rankedResults_perm|].
    exact Hu. }
  apply in_map_iff in Hin as [r [<- Hr]]. apply in_map.
  apply filter_In. split; [exact Hr | exact Hun].
Qed.

Lemma rank_truncation_prefers_network_witness :
  In "https://linkedin.com/jobs/1"
     (map url (rank (Some "acme.com")
                 [recordAt "https://acme.com/team"; recordAt "https://linkedin.com/jobs/1"])).
Proof.
  apply (rank_truncation_prefers_network (Some "acme.com")
           [recordAt "https://acme.com/team"; recordAt "https://linkedin.com/jobs/1"]
           (recordAt "https://acme.com/team") "https://linkedin.com/jobs/1").
  - vm_compute. tauto.
  - reflexivity.
  - simpl. tauto.
  - reflexivity.
Defined.

(** ** Field classifier and query synthesizer: edge behaviour *)

Section StringFacts.

Lemma append_cons x (a b : string) : String x a +:+ b = String x (a +:+ b).
Proof. reflexivity. Qed.

Lemma append_nil_l (b : string) : EmptyString +:+ b = b.
Proof. reflexivity. Qed.

Lemma append_assoc (a b c : string) : (a +:+ b) +:+ c = a +:+ (b +:+ c).
Proof.
  induction a as [|x a IH]; [reflexivity|].
  rewrite !append_cons. f_equal. exact IH.
Qed.

Lemma prefix_append p r : String.prefix p (p +:+ r) = true.
Proof.
  induction p as [|a p IH]; [rewrite append_nil_l; now destruct r|].
  rewrite append_cons. simpl.
  destruct (ascii_dec a a); [exact IH | contradiction].
Qed.

Lemma includes_prefix s q : String.prefix q s = true -> JS.includes s q = true.
Proof. intros H. destruct s; cbn [JS.includes]; now rewrite H. Qed.

Lemma includes_skip p s q : JS.includes s q = true -> JS.includes (p +:+ s) q = true.
Proof.
  intros H. induction p as [|a p IH]; [exact H|].
  rewrite append_cons. cbn [JS.includes].
  rewrite IH. apply orb_true_r.
Qed.

(** A string holds the piece it starts with. *)
Lemma includes_here q r : JS.includes (q +:+ r) q = true.
Proof. apply includes_prefix, prefix_append. Qed.

Lemma all_chars_append p a b : all_chars p (a +:+ b) = all_chars p a && all_chars p b.
Proof.
  induction a as [|x a IH]; [reflexivity|].
  rewrite append_cons. simpl. now rewrite IH, andb_assoc.
Qed.

Lemma all_chars_map_chars (p q : ascii -> bool) f s :
  (forall c, p c = true -> q (f c) = true) ->
  all_chars p s = true -> all_chars q (JS.map_chars f s) = true.
Proof.
  intros Hf. induction s as [|c s IH]; simpl; [reflexivity|].
  intros H. apply andb_true_iff in H as [Hc Hs]. now rewrite (Hf c Hc), IH.
Qed.

Lemma lower_char_not_upper c : JS.is_upper (JS.lower_char c) = false.
Proof. destruct c as [[] [] [] [] [] [] [] []]; reflexivity. Qed.

Lemma toLowerCase_no_upper s :
  all_chars (fun c => negb (JS.is_upper c)) (JS.toLowerCase s) = true.
Proof.
  induction s as [|c s IH]; simpl; [reflexivity|].
  now rewrite lower_char_not_upper, IH.
Qed.

Lemma length_map_chars f s : String.length (JS.map_chars f s) = String.length s.
Proof. induction s as [|c s IH]; simpl; [reflexivity | now rewrite IH]. Qed.

(** The pieces between runs of spaces are made of the non-space characters. *)
Lemma split_spaces_pieces (K : ascii -> bool) s :
  forall in_run cur,
    all_chars K cur = true ->
    all_chars (fun c => JS.is_space c || K c) s = true ->
    Forall (fun w => all_chars K w = true) (JS.split_spaces_from in_run cur s).
Proof.
  induction s as [|c s IH]; intros in_run cur Hcur Hs; simpl.
  - now constructor.
  - simpl in Hs. apply andb_true_iff in Hs as [Hc Hs].
    destruct (JS.is_space c) eqn:Hsp.
    + destruct in_run; [now apply IH|]. constructor; [exact Hcur | now apply IH].
    + apply IH; [|exact Hs]. rewrite all_chars_append, Hcur. simpl in *. now rewrite Hc.
Qed.

End StringFacts.

Lemma not_executive_no_keyword field :
  isExecutiveField field = false ->
  forall keyword, In keyword executiveTitles ->
    JS.includes (JS.toLowerCase (name field)) keyword = false
    /\ JS.includes (JS.toLowerCase (description field)) keyword = false.
Proof.
  unfold isExecutiveField. intros H keyword Hk.
  destruct (JS.includes (JS.toLowerCase (name field)) keyword
            || JS.includes (JS.toLowerCase (description field)) keyword) eqn:E.
  - exfalso. assert (Hex : existsb
       (fun title => JS.includes (JS.toLowerCase (name field)) title
                     || JS.includes (JS.toLowerCase (description field)) title)
       executiveTitles = true) by (apply existsb_exists; eauto).
    congruence.
  - now apply orb_false_iff in E.
Qed.

(** X4.  [extractTitle] renames executive fields only: a field in which no
    executive keyword occurs keeps its own name as title.  (The long forms
    looked for in the description all start with "chief", itself an
    executive keyword.) *)
Theorem extractTitle_renames_executives_only (field : EnrichmentField) :
  isExecutiveField field = false -> extractTitle field = name field.
Proof.
  intros H. pose proof (not_executive_no_keyword field H) as Hk.
  assert (Hlong : forall long q, long = "chief" +:+ q ->
            JS.includes (JS.toLowerCase (description field)) long = false).
  { intros long q ->. destruct (JS.includes _ ("chief" +:+ q)) eqn:E; [|reflexivity].
    apply includes_app_l in E. destruct (Hk "chief") as [_ Hc]; [simpl; tauto | congruence]. }
  unfold extractTitle.
  rewrite (Hlong "chief executive" " executive" eq_refl),
          (Hlong "chief technology" " technology" eq_refl),
          (Hlong "chief financial" " financial" eq_refl),
          (Hlong "chief operating" " operating" eq_refl),
          (Hlong "chief marketing" " marketing" eq_refl),
          (Hlong "chief product" " product" eq_refl).
  rewrite (proj1 (Hk "ceo" ltac:(simpl; tauto))), (proj1 (Hk "cto" ltac:(simpl; tauto))),
          (proj1 (Hk "cfo" ltac:(simpl; tauto))), (proj1 (Hk "coo" ltac:(simpl; tauto))),
          (proj1 (Hk "cmo" ltac:(simpl; tauto))), (proj1 (Hk "cpo" ltac:(simpl; tauto))),
          (proj1 (Hk "founder" ltac:(simpl; tauto))),
          (proj1 (Hk "president" ltac:(simpl; tauto))).
  reflexivity.
Qed.

Lemma extractTitle_renames_executives_only_witness :
  extractTitle revenueField = "Revenue".
Proof. exact (extractTitle_renames_executives_only revenueField eq_refl). Defined.

(** X5.  The search terms of a field are its name followed by at most three
    key words of the description; each key word is longer than three
    characters, is not a stop word and is made of lower-case letters, digits
    and underscores only.  A field without description gives its name
    alone. *)
Theorem getSearchTermsForField_keywords (field : EnrichmentField) :
  exists words,
    getSearchTermsForField field = JS.join " " (name field :: words)
    /\ (length words <= 3)%nat
    /\ (description field = EmptyString -> words = [])
    /\ Forall (fun w => (3 < String.length w)%nat
                        /\ ~ In w stopWords
                        /\ all_chars is_keyword_char w = true) words.
Proof.
  unfold getSearchTermsForField.
  destruct (description field) as [|c d] eqn:Hd; simpl JS.truthy; cbv iota.
  - exists []. repeat split; auto.
  - rewrite <- Hd.
    set (pieces := JS.split_spaces
                     (JS.punctuation_to_spaces (JS.toLowerCase (description field)))).
    set (keyPhrases := List.filter _ pieces).
    exists (firstn 3 keyPhrases). split; [reflexivity|].
    split; [apply firstn_le_length|]. split; [rewrite Hd; discriminate|].
    apply List.Forall_forall. intros w Hw.
    assert (Hk : In w keyPhrases).
    { rewrite <- (firstn_skipn 3 keyPhrases). apply in_or_app. now left. }
    apply filter_In in Hk as [Hp Hk]. apply andb_true_iff in Hk as [Hlen Hstop].
    split; [now apply Nat.ltb_lt|]. split.
    + intros Hin. apply negb_true_iff in Hstop.
      assert (Hex : existsb (String.eqb w) stopWords = true).
      { apply existsb_exists. exists w. split; [exact Hin | apply String.eqb_refl]. }
      congruence.
    + assert (Hall : Forall (fun w => all_chars is_keyword_char w = true) pieces).
      { apply split_spaces_pieces; [reflexivity|].
        apply (all_chars_map_chars (fun c => negb (JS.is_upper c))); [|apply toLowerCase_no_upper].
        intros c0 Hc0. unfold is_keyword_char.
        destruct (JS.is_word c0) eqn:Hw0; simpl.
        - rewrite Hw0, Hc0. simpl. apply orb_true_r.
        - destruct (JS.is_space c0) eqn:Hs0; simpl; [now rewrite Hs0 | reflexivity]. }
      rewrite List.Forall_forall in Hall. now apply Hall.
Qed.

Lemma pathParts_nonempty pathname part : In part (pathParts pathname) -> part <> EmptyString.
Proof.
  unfold pathParts. intros H. apply filter_In in H as [_ H]. now destruct part.
Qed.

Lemma all_chars_true s : all_chars (fun _ => true) s = true.
Proof. induction s as [|c s IH]; simpl; [reflexivity | exact IH]. Qed.

Lemma hyphens_to_spaces_no_hyphen s : all_chars not_hyphen (JS.hyphens_to_spaces s) = true.
Proof.
  apply (all_chars_map_chars (fun _ => true)); [|apply all_chars_true].
  intros c _. unfold not_hyphen. destruct (Ascii.eqb c "-") eqn:E; [reflexivity|].
  now rewrite E.
Qed.

Lemma extractLinkedInCompanyName_company (URL_pathname : string -> option string)
    anchor pathname seg rest :
  URL_pathname anchor = Some pathname ->
  pathParts pathname = "company" :: seg :: rest ->
  extractLinkedInCompanyName URL_pathname anchor = JS.hyphens_to_spaces seg
  /\ seg <> EmptyString.
Proof.
  intros Hp Hparts.
  assert (Hseg : seg <> EmptyString).
  { apply (pathParts_nonempty pathname). rewrite Hparts. right. now left. }
  split; [|exact Hseg].
  unfold extractLinkedInCompanyName. rewrite Hp, Hparts.
  destruct seg; [congruence | reflexivity].
Qed.

(** X6.  The company name derived from an anchor URL is non-empty exactly
    when the URL parses and its path starts with [company] and a further
    segment; it is then that segment with every hyphen turned into a space, of
    the same length, and in no case does it hold a hyphen. *)
Theorem derived_company_name (URL_pathname : string -> option string) (anchor : string) :
  (extractLinkedInCompanyName URL_pathname anchor <> EmptyString
   <-> exists pathname,
         URL_pathname anchor = Some pathname /\ companyPath (pathParts pathname))
  /\ all_chars not_hyphen (extractLinkedInCompanyName URL_pathname anchor) = true
  /\ (forall pathname seg rest,
        URL_pathname anchor = Some pathname ->
        pathParts pathname = "company" :: seg :: rest ->
        extractLinkedInCompanyName URL_pathname anchor = JS.hyphens_to_spaces seg
        /\ String.length (extractLinkedInCompanyName URL_pathname anchor)
           = String.length seg).
Proof.
  split; [split|split].
  - intros Hne. destruct (URL_pathname anchor) as [pathname|] eqn:Hp.
    + exists pathname. split; [reflexivity|].
      unfold extractLinkedInCompanyName in Hne. rewrite Hp in Hne.
      destruct (pathParts pathname) as [|p0 [|p1 rest]]; try congruence.
      destruct (String.eqb_spec p0 "company") as [->|_]; [|simpl in Hne; congruence].
      exists p1, rest. split; [|reflexivity]. intros ->. simpl in Hne. congruence.
    + unfold extractLinkedInCompanyName in Hne. rewrite Hp in Hne. congruence.
  - intros [pathname [Hp [seg [rest [Hseg Hparts]]]]].
    destruct (extractLinkedInCompanyName_company _ _ _ _ _ Hp Hparts) as [-> _].
    destruct seg; [congruence | discriminate].
  - unfold extractLinkedInCompanyName.
    destruct (URL_pathname anchor) as [pathname|]; [|reflexivity].
    destruct (pathParts pathname) as [|p0 [|p1 rest]]; try reflexivity.
    destruct (String.eqb p0 "company" && JS.truthy p1); [|reflexivity].
    apply hyphens_to_spaces_no_hyphen.
  - intros pathname seg rest Hp Hparts.
    destruct (extractLinkedInCompanyName_company _ _ _ _ _ Hp Hparts) as [-> _].
    split; [reflexivity | apply length_map_chars].
Qed.

Lemma no_executive_fields fields :
  hasExecutiveFields fields = false ->
  List.filter isExecutiveField fields = []
  /\ List.filter (fun f => negb (isExecutiveField f)) fields = fields.
Proof.
  unfold hasExecutiveFields. intros H.
  assert (Hall : Forall (fun f => isExecutiveField f = false) fields).
  { apply List.Forall_forall. intros f Hf.
    destruct (isExecutiveField f) eqn:E; [|reflexivity].
    assert (existsb isExecutiveField fields = true) by (apply existsb_exists; eauto).
    congruence. }
  split; [now apply filter_none|].
  apply filter_all. eapply List.Forall_impl; [|exact Hall]. simpl. now intros f ->.
Qed.

(** X7.  Without an executive field the anchor plays no part: the queries
    are those of the fields one by one, a quoted-name query and a
    domain-scoped query each, as far as name and domain are known; with
    neither known there is no query at all. *)
Theorem queries_without_executive_fields
    (URL_pathname : string -> option string) (fields : list EnrichmentField)
    (cName cDomain anchor : option string) :
  hasExecutiveFields fields = false ->
  buildLinkedInFirstQueries URL_pathname fields cName cDomain anchor
  = flat_map (otherFieldQueries cName cDomain) fields
  /\ length (buildLinkedInFirstQueries URL_pathname fields cName cDomain anchor)
     = (length fields * ((if JS.truthy_opt cName then 1 else 0)
                         + (if JS.truthy_opt cDomain then 1 else 0)))%nat.
Proof.
  intros H. destruct (no_executive_fields fields H) as [Hexec Hother].
  assert (E : buildLinkedInFirstQueries URL_pathname fields cName cDomain anchor
              = flat_map (otherFieldQueries cName cDomain) fields).
  { unfold buildLinkedInFirstQueries. now rewrite Hexec, Hother. }
  split; [exact E|]. rewrite E. clear.
  induction fields as [|f fields IH]; simpl; [reflexivity|].
  rewrite length_app, IH. unfold otherFieldQueries.
  destruct (JS.truthy_opt cName), (JS.truthy_opt cDomain); simpl; lia.
Qed.

Lemma queries_without_executive_fields_witness :
  buildLinkedInFirstQueries PlainURL.pathname [revenueField] (Some "Acme Corp")
                            (Some "acme.com") (Some acmeAnchor)
  = flat_map (otherFieldQueries (Some "Acme Corp") (Some "acme.com")) [revenueField].
Proof.
  exact (proj1 (queries_without_executive_fields PlainURL.pathname [revenueField]
                  (Some "Acme Corp") (Some "acme.com") (Some acmeAnchor) eq_refl)).
Defined.

Section QueryScope.

Lemma includes_quoted pre nm post :
  JS.includes (pre +:+ JS.dq +:+ nm +:+ JS.dq +:+ post) (JS.dq +:+ nm +:+ JS.dq) = true.
Proof.
  apply includes_skip.
  rewrite <- (append_assoc nm JS.dq post), <- (append_assoc JS.dq (nm +:+ JS.dq) post).
  apply includes_here.
Qed.

Lemma includes_quoted_front nm post :
  JS.includes (JS.dq +:+ nm +:+ JS.dq +:+ post) (JS.dq +:+ nm +:+ JS.dq) = true.
Proof. exact (includes_quoted EmptyString nm post). Qed.

Lemma prefix_site d rest :
  String.prefix ("site:" +:+ d +:+ " ") ("site:" +:+ d +:+ " " +:+ rest) = true.
Proof.
  rewrite <- (append_assoc d " " rest), <- (append_assoc "site:" (d +:+ " ") rest).
  apply prefix_append.
Qed.

End QueryScope.

(** X8.  Every synthesized query is tied to the company.  Given that an
    anchor comes with a company name (as it does in [execute]), each query is
    the anchor query on the name derived from the anchor URL, or holds the
    company name in double quotes (the name being known), or starts with
    [site:] and the company's domain (the domain being known). *)
Theorem every_query_is_scoped
    (URL_pathname : string -> option string) (fields : list EnrichmentField)
    (cName cDomain anchor : option string) (q : string) :
  (JS.truthy_opt anchor = true -> JS.truthy_opt cName = true) ->
  In q (buildLinkedInFirstQueries URL_pathname fields cName cDomain anchor) ->
  (exists a, anchor = Some a
             /\ q = "site:linkedin.com/in " +:+ JS.dq
                      +:+ extractLinkedInCompanyName URL_pathname a +:+ JS.dq
                      +:+ " " +:+ JS.join " OR " (executiveTitlesOf fields))
  \/ (JS.truthy_opt cName = true
      /\ JS.includes q (JS.dq +:+ JS.show cName +:+ JS.dq) = true)
  \/ (JS.truthy_opt cDomain = true
      /\ String.prefix ("site:" +:+ JS.show cDomain +:+ " ") q = true).
Proof.
  intros Hanchor Hq. unfold buildLinkedInFirstQueries in Hq.
  apply in_app_or in Hq as [Hq|Hq].
  - destruct (0 <? length (List.filter isExecutiveField fields))%nat; [|destruct Hq].
    apply in_app_or in Hq as [Hq|Hq].
    { destruct anchor as [a|]; [|destruct Hq].
      destruct (JS.truthy a) eqn:Ha; [|destruct Hq].
      destruct Hq as [<-|[<-|[]]].
      - left. exists a. split; reflexivity.
      - right. left. split; [now apply Hanchor | apply includes_quoted]. }
    apply in_app_or in Hq as [Hq|Hq].
    { destruct (JS.truthy_opt cName) eqn:Hn; [|destruct Hq].
      right. left. split; [reflexivity|].
      apply in_app_or in Hq as [Hq|Hq].
      - apply in_map_iff in Hq as [t [<- _]].
        do 4 apply includes_skip. apply includes_quoted.
      - destruct Hq as [<-|[<-|[]]]; apply includes_quoted. }
    apply in_app_or in Hq as [Hq|Hq].
    { destruct (JS.truthy_opt cDomain) eqn:Hd; [|destruct Hq].
      right. right. split; [reflexivity|].
      destruct Hq as [<-|[<-|[]]].
      - exact (prefix_site (JS.show cDomain) "team leadership about executives").
      - exact (prefix_site (JS.show cDomain) "about-us"). }
    destruct (JS.truthy_opt cName) eqn:Hn; [|destruct Hq].
    destruct Hq as [<-|[]]. right. left. split; [reflexivity|].
    apply includes_quoted_front.
  - apply in_flat_map in Hq as [f [_ Hq]]. unfold otherFieldQueries in Hq.
    apply in_app_or in Hq as [Hq|Hq].
    + destruct (JS.truthy_opt cName) eqn:Hn; [|destruct Hq].
      destruct Hq as [<-|[]]. right. left. split; [reflexivity|].
      apply includes_quoted_front.
    + destruct (JS.truthy_opt cDomain) eqn:Hd; [|destruct Hq].
      destruct Hq as [<-|[]]. right. right. split; [reflexivity|].
      apply prefix_site.
Qed.

Lemma every_query_is_scoped_witness :
  JS.truthy_opt (Some "Acme Corp") = true
  /\ JS.includes (JS.dq +:+ "Acme Corp" +:+ JS.dq +:+ " CEO 2025")
                 (JS.dq +:+ "Acme Corp" +:+ JS.dq) = true.
Proof.
  destruct (every_query_is_scoped PlainURL.pathname [ceoField] (Some "Acme Corp")
              (Some "acme.com") (Some acmeAnchor)
              (JS.dq +:+ "Acme Corp" +:+ JS.dq +:+ " CEO 2025"))
    as [[a [_ Ha]] | [H | [_ H]]].
  - intros _. reflexivity.
  - vm_compute. tauto.
  - vm_compute in Ha. discriminate Ha.
  - exact H.
  - vm_compute in H. discriminate H.
Defined.

(** ** Orchestration: what [execute] calls and what it returns *)

Section StoreFacts.

Context {EnrichmentResult : Type}.
Variable has_value : EnrichmentResult -> bool.

Lemma storedResults_snoc entries e (m : gmap string EnrichmentResult) :
  storedResults has_value (entries ++ [e]) m
  = (if has_value (snd e) then <[fst e := snd e]> (storedResults has_value entries m)
     else storedResults has_value entries m).
Proof. unfold storedResults. now rewrite fold_left_app. Qed.

(** What is stored has a value and was an entry, or was there before. *)
Lemma storedResults_sound entries (m : gmap string EnrichmentResult) k v :
  storedResults has_value entries m !! k = Some v ->
  (has_value v = true /\ In (k, v) entries) \/ m !! k = Some v.
Proof.
  induction entries as [|[k' v'] entries IH] using rev_ind; [now right|].
  rewrite storedResults_snoc. simpl.
  destruct (has_value v') eqn:Hv.
  - destruct (decide (k' = k)) as [->|Hne].
    + rewrite lookup_insert_eq. intros [= ->]. left. split; [exact Hv|].
      apply in_or_app. right. now left.
    + rewrite lookup_insert_ne by exact Hne. intros H.
      destruct (IH H) as [[? ?]|?]; [left; split; [assumption|]|now right].
      apply in_or_app. now left.
  - intros H. destruct (IH H) as [[? ?]|?]; [left; split; [assumption|]|now right].
    apply in_or_app. now left.
Qed.

(** With one entry per key, as [Object.entries] gives them, an entry with a
    value is stored as it is. *)
Lemma storedResults_complete entries (m : gmap string EnrichmentResult) k v :
  List.NoDup (map fst entries) -> In (k, v) entries -> has_value v = true ->
  storedResults has_value entries m !! k = Some v.
Proof.
  induction entries as [|[k' v'] entries IH] using rev_ind; [intros _ []|].
  rewrite map_app. simpl. intros Hnd Hin Hv.
  apply NoDup_remove in Hnd as [Hnd Hk']. rewrite app_nil_r in Hnd, Hk'.
  rewrite storedResults_snoc. simpl.
  apply in_app_or in Hin as [Hin|[[= -> ->]|[]]].
  - assert (Hne : k' <> k).
    { intros ->. apply Hk'. apply in_map_iff. exists (k, v). now split. }
    destruct (has_value v'); [rewrite lookup_insert_ne by exact Hne|]; now apply IH.
  - rewrite Hv. apply lookup_insert_eq.
Qed.

(** A key none of whose entries has a value is left as it was. *)
Lemma storedResults_untouched entries (m : gmap string EnrichmentResult) k :
  (forall v, In (k, v) entries -> has_value v = false) ->
  storedResults has_value entries m !! k = m !! k.
Proof.
  induction entries as [|[k' v'] entries IH] using rev_ind; [reflexivity|].
  intros H. rewrite storedResults_snoc. simpl.
  assert (IH' : storedResults has_value entries m !! k = m !! k).
  { apply IH. intros v Hv. apply H. apply in_or_app. now left. }
  destruct (has_value v') eqn:Hv; [|exact IH'].
  rewrite lookup_insert_ne; [exact IH'|].
  intros ->. specialize (H v'). rewrite H in Hv; [discriminate|].
  apply in_or_app. right. now left.
Qed.

End StoreFacts.

Section EvidenceFacts.

Lemma append_nil_r (a : string) : a +:+ EmptyString = a.
Proof. induction a as [|x a IH]; [reflexivity|]. rewrite append_cons. now f_equal. Qed.

Lemma evidenceBlock_truthy r : JS.truthy (evidenceBlock r) = true.
Proof. reflexivity. Qed.

Lemma evidenceBlocks_all_kept l :
  List.filter JS.truthy (map evidenceBlock l) = map evidenceBlock l.
Proof.
  apply filter_all. apply List.Forall_forall. intros b Hb.
  apply in_map_iff in Hb as [r [<- _]]. apply evidenceBlock_truthy.
Qed.

Lemma join_cons2 sep x y rest :
  JS.join sep (x :: y :: rest) = x +:+ sep +:+ JS.join sep (y :: rest).
Proof. reflexivity. Qed.

Lemma join_includes sep blocks b :
  In b blocks -> JS.includes (JS.join sep blocks) b = true.
Proof.
  induction blocks as [|x [|y rest] IH]; [intros []| |].
  - intros [->|[]]. simpl. rewrite <- (append_nil_r b) at 1. apply includes_here.
  - intros [->|Hin]; rewrite join_cons2.
    + apply includes_here.
    + do 2 apply includes_skip. now apply IH.
Qed.

Lemma combinedContent_nonempty l : l <> [] -> combinedContent l <> EmptyString.
Proof.
  destruct l as [|r [|r' l]]; [congruence| |]; intros _;
    unfold combinedContent; rewrite evidenceBlocks_all_kept.
  - discriminate.
  - cbn [map]. rewrite join_cons2. discriminate.
Qed.

End EvidenceFacts.

(** X9.  Serialization loses no kept record: every record gets its block
    (the [filter(Boolean)] drops none), each block is part of the evidence
    text, and the text of a non-empty evidence list is not empty. *)
Theorem evidence_text_holds_every_record (l : list SearchResult) :
  List.filter JS.truthy (map evidenceBlock l) = map evidenceBlock l
  /\ Forall (fun r => JS.includes (combinedContent l) (evidenceBlock r) = true
                      /\ JS.includes (combinedContent l) ("URL: " +:+ url r) = true) l
  /\ (combinedContent l = EmptyString <-> l = []).
Proof.
  split; [apply evidenceBlocks_all_kept|]. split.
  - apply List.Forall_forall. intros r Hr.
    assert (Hb : JS.includes (combinedContent l) (evidenceBlock r) = true).
    { unfold combinedContent. rewrite evidenceBlocks_all_kept.
      apply join_includes. now apply in_map. }
    split; [exact Hb|].
    unfold evidenceBlock in Hb at 1.
    rewrite <- (append_assoc "URL: " (url r)) in Hb.
    exact (includes_app_l _ _ _ Hb).
  - split; [|now intros ->].
    intros H. destruct l as [|r l]; [reflexivity|].
    exfalso. apply (combinedContent_nonempty (r :: l)); [discriminate | exact H].
Qed.

Section ExecuteFacts.

Context {W : Type} {EnrichmentResult : Type}.
Variable has_value : EnrichmentResult -> bool.
Variable URL_pathname : string -> option string.
Variable tools : @GeneralAgentTools W EnrichmentResult.

Local Abbreviation State := (@AgentState W EnrichmentResult).
Local Abbreviation search3 := (fun q : string => CallSearch q 3).

Ltac step :=
  unfold bind, try_catch, ret, call_search, call_scrape, call_extract,
         set_result, get_results, new_results; simpl.

Lemma storeResults_run entries (st : State) :
  storeResults has_value entries st
  = (inr tt, mkState (world st) (calls st) (storedResults has_value entries (results st))).
Proof.
  revert st. induction entries as [|[k v] entries IH]; intros st.
  - destruct st; reflexivity.
  - cbn [storeResults]. unfold bind. destruct (has_value v) eqn:Hv.
    + unfold set_result. rewrite IH. unfold storedResults. simpl. now rewrite Hv.
    + unfold ret. rewrite IH. unfold storedResults. simpl. now rewrite Hv.
Qed.

(** The resolver and its one search. *)
Lemma findCompanyLinkedInPage_run cName cDomain (st : State) :
  exists anchor,
    findCompanyLinkedInPage tools cName cDomain st
    = (inr anchor,
       mkState (snd (search tools (anchorQuery cName) 5 (world st)))
               (calls st ++ [CallSearch (anchorQuery cName) 5])
               (results st))
    /\ (forall u, anchor = Some u ->
          exists rs r, fst (search tools (anchorQuery cName) 5 (world st)) = inr rs
                       /\ In r rs /\ url r = u
                       /\ JS.includes u "linkedin.com/company" = true)
    /\ (anchor = None ->
          forall rs r, fst (search tools (anchorQuery cName) 5 (world st)) = inr rs ->
                       In r rs -> JS.includes (url r) "linkedin.com/company" = false)
    /\ (forall rs r, fst (search tools (anchorQuery cName) 5 (world st)) = inr rs ->
                     In r rs -> namesCompany cName r = true ->
                     exists r', In r' rs /\ namesCompany cName r' = true
                                /\ anchor = Some (url r')).
Proof.
  unfold findCompanyLinkedInPage, anchorQuery. step.
  destruct (search tools _ 5 (world st)) as [[e | rs] w1]; simpl.
  - exists None. split; [reflexivity|]. repeat split; try discriminate.
  - destruct (length rs =? 0)%nat eqn:Hlen.
    + apply Nat.eqb_eq in Hlen. destruct rs; [|discriminate Hlen].
      exists None. split; [reflexivity|]. split; [discriminate|].
      split; intros; match goal with H : inr _ = inr _ |- _ => injection H as <- end;
        contradiction.
    + change (fun result : SearchResult =>
                JS.includes (url result) "linkedin.com/company"
                && JS.includes (JS.toLowerCase (url result))
                               (JS.spaces_to_hyphen (JS.toLowerCase cName)))
        with (namesCompany cName).
      destruct (List.filter (namesCompany cName) rs) as [|page pages] eqn:Hf.
      * destruct (List.find _ rs) as [page|] eqn:Hfind.
        -- exists (Some (url page)). split; [reflexivity|].
           apply find_some in Hfind as [Hin Hu].
           split; [intros u [= <-]; exists rs, page; auto|].
           split; [discriminate|].
           intros rs' r [= <-] Hr Hn. exfalso.
           assert (Hin' : In r (List.filter (namesCompany cName) rs))
             by (apply filter_In; auto).
           rewrite Hf in Hin'. exact Hin'.
        -- exists None. split; [reflexivity|]. split; [discriminate|]. split.
           ++ intros _ rs' r [= <-] Hr. exact (find_none _ _ Hfind r Hr).
           ++ intros rs' r [= <-] Hr Hn. exfalso.
              assert (Hin' : In r (List.filter (namesCompany cName) rs))
                by (apply filter_In; auto).
              rewrite Hf in Hin'. exact Hin'.
      * assert (Hin : In page (List.filter (namesCompany cName) rs))
          by (rewrite Hf; now left).
        apply filter_In in Hin as [Hin Hn].
        exists (Some (url page)). split; [reflexivity|].
        split; [intros u [= <-]; exists rs, page; repeat split; auto;
                unfold namesCompany in Hn; now apply andb_true_iff in Hn|].
        split; [discriminate|].
        intros rs' r [= <-] Hr Hn'. exists page. auto.
Qed.

Lemma collect_run queries cDomain fields (st : State) :
  collect tools queries cDomain fields st
  = (inr (flat_map contribution (fst (searchAnswers tools queries (world st)))
          ++ flat_map pushedBy
               (fst (scrapeAttempts tools
                       (if JS.truthy_opt cDomain && hasExecutiveFields fields
                        then leadershipPages (JS.show cDomain) else [])
                       (snd (searchAnswers tools queries (world st)))))),
     mkState (snd (scrapeAttempts tools
                     (if JS.truthy_opt cDomain && hasExecutiveFields fields
                      then leadershipPages (JS.show cDomain) else [])
                     (snd (searchAnswers tools queries (world st)))))
             (calls st ++ map search3 queries
                ++ map (fun a => CallScrape (fst a))
                     (fst (scrapeAttempts tools
                             (if JS.truthy_opt cDomain && hasExecutiveFields fields
                              then leadershipPages (JS.show cDomain) else [])
                             (snd (searchAnswers tools queries (world st))))))
             (results st)).
Proof.
  unfold collect, bind. rewrite searchAll_answers. cbv beta iota.
  destruct (JS.truthy_opt cDomain && hasExecutiveFields fields).
  - unfold try_catch. rewrite scrapePages_attempts. cbn [world calls results app].
    rewrite <- app_assoc. reflexivity.
  - unfold ret. simpl. rewrite !app_nil_r. reflexivity.
Qed.

Lemma uniqueResults_nil_iff cDomain (l : list SearchResult) :
  (length (uniqueResults (rankedResults cDomain l)) =? 0)%nat = true <-> l = [].
Proof.
  rewrite uniqueResults_length, Nat.eqb_eq. destruct l; simpl; split; congruence.
Qed.

(** [execute] with a name or a domain, step by step: the anchor lookup, the
    searches, the fetches, and the one call of the engine when there is
    evidence. *)
Lemma execute_outcome context fields (st : State) :
  let cName := resolveCompanyName context in
  let cDomain := resolveCompanyDomain context in
  negb (JS.truthy_opt cName) && negb (JS.truthy_opt cDomain) = false ->
  exists anchorCalls anchor w1,
    ((JS.truthy_opt cName = false /\ anchorCalls = [] /\ anchor = None /\ w1 = world st)
     \/ (JS.truthy_opt cName = true
         /\ anchorCalls = [CallSearch (anchorQuery (JS.show cName)) 5]
         /\ w1 = snd (search tools (anchorQuery (JS.show cName)) 5 (world st))
         /\ forall u, anchor = Some u -> JS.includes u "linkedin.com/company" = true))
    /\ let queries := buildLinkedInFirstQueries URL_pathname fields cName cDomain anchor in
       let pages := if JS.truthy_opt cDomain && hasExecutiveFields fields
                    then leadershipPages (JS.show cDomain) else [] in
       let answers := searchAnswers tools queries w1 in
       let attempts := scrapeAttempts tools pages (snd answers) in
       let recs := flat_map contribution (fst answers) ++ flat_map pushedBy (fst attempts) in
       let log := calls st ++ anchorCalls ++ map search3 queries
                    ++ map (fun a => CallScrape (fst a)) (fst attempts) in
       let evidence := combinedContent (rank cDomain recs) in
       let ectx := mkEnrichmentContext cName cDomain cDomain anchor context in
       execute has_value URL_pathname tools context fields st
       = match recs with
         | [] => (inr ∅, mkState (snd attempts) log ∅)
         | _ :: _ =>
             match extractStructuredData tools evidence fields ectx (snd attempts) with
             | (inl _, w) =>
                 (inr ∅, mkState w (log ++ [CallExtract evidence fields ectx]) ∅)
             | (inr entries, w) =>
                 (inr (storedResults has_value entries ∅),
                  mkState w (log ++ [CallExtract evidence fields ectx])
                          (storedResults has_value entries ∅))
             end
         end.
Proof.
  cbv zeta. intros Hid.
  assert (Hanchor : exists anchorCalls anchor w1,
    ((JS.truthy_opt (resolveCompanyName context) = false /\ anchorCalls = []
      /\ anchor = None /\ w1 = world st)
     \/ (JS.truthy_opt (resolveCompanyName context) = true
         /\ anchorCalls = [CallSearch (anchorQuery (JS.show (resolveCompanyName context))) 5]
         /\ w1 = snd (search tools (anchorQuery (JS.show (resolveCompanyName context))) 5
                        (world st))
         /\ forall u, anchor = Some u -> JS.includes u "linkedin.com/company" = true))
    /\ (if JS.truthy_opt (resolveCompanyName context)
        then findCompanyLinkedInPage tools (JS.show (resolveCompanyName context))
                                     (resolveCompanyDomain context)
        else ret None) (mkState (world st) (calls st) ∅)
       = (inr anchor, mkState w1 (calls st ++ anchorCalls) ∅)).
  { destruct (JS.truthy_opt (resolveCompanyName context)) eqn:Hn.
    - destruct (findCompanyLinkedInPage_run (JS.show (resolveCompanyName context))
                  (resolveCompanyDomain context) (mkState (world st) (calls st) ∅))
        as [anchor [Hrun [Hsome _]]].
      eexists _, anchor, _. split; [right; repeat split; try reflexivity|exact Hrun].
      intros u Hu. destruct (Hsome u Hu) as [rs [r [_ [_ [_ Hinc]]]]]. exact Hinc.
    - exists [], None, (world st). split; [left; auto|].
      unfold ret. now rewrite app_nil_r. }
  destruct Hanchor as [anchorCalls [anchor [w1 [Hfacts Hrun]]]].
  exists anchorCalls, anchor, w1. split; [exact Hfacts|].
  unfold execute. rewrite Hid.
  unfold bind at 1. unfold new_results. cbv beta iota.
  unfold bind at 1. unfold try_catch. unfold execute_try.
  unfold bind at 1. cbn [world calls results]. rewrite Hrun.
  unfold bind at 1. rewrite collect_run. cbn [world calls results].
  set (queries := buildLinkedInFirstQueries _ _ _ _ _).
  set (pages := if _ && _ then _ else _).
  set (attempts := scrapeAttempts tools pages _).
  set (recs := _ ++ flat_map pushedBy _).
  clearbody recs.
  destruct (length (uniqueResults (rankedResults (resolveCompanyDomain context) recs)) =? 0)%nat
    eqn:Hlen.
  - apply uniqueResults_nil_iff in Hlen. subst recs.
    unfold ret. rewrite <- ?app_assoc. reflexivity.
  - destruct recs as [|r0 recs0].
    { exfalso. rewrite (proj2 (uniqueResults_nil_iff (resolveCompanyDomain context) []) eq_refl)
        in Hlen. discriminate Hlen. }
    unfold bind, call_extract, rank. cbn [world calls results].
    destruct (extractStructuredData tools _ fields _ (snd attempts)) as [[e|entries] w3].
    + unfold ret, get_results. cbn [world calls results].
      rewrite <- ?app_assoc. reflexivity.
    + rewrite storeResults_run. unfold ret, get_results. cbn [world calls results].
      rewrite <- ?app_assoc. reflexivity.
Qed.

Lemma searchAnswers_barren queries (w : W) :
  (forall q n w', contribution (fst (search tools q n w')) = []) ->
  flat_map contribution (fst (searchAnswers tools queries w)) = [].
Proof.
  intros H. revert w. induction queries as [|q queries IH]; intros w; simpl; [reflexivity|].
  pose proof (H q 3%nat w) as Hq. destruct (search tools q 3 w) as [o w1].
  specialize (IH w1). destruct (searchAnswers tools queries w1) as [os w2].
  simpl in *. now rewrite Hq, IH.
Qed.

Lemma scrapeAttempts_barren pageUrls (w : W) :
  (forall u w', usable (fst (scrape tools u w')) = false) ->
  flat_map pushedBy (fst (scrapeAttempts tools pageUrls w)) = [].
Proof.
  intros H. apply scrapeAttempts_all_fail.
  revert w. induction pageUrls as [|u us IH]; intros w; simpl; [reflexivity|].
  pose proof (H u w) as Hu. destruct (scrape tools u w) as [o w1]. simpl in Hu.
  rewrite Hu. specialize (IH w1). destruct (scrapeAttempts tools us w1) as [os w2].
  simpl in *. now rewrite Hu, IH.
Qed.

(** X10.  The anchor resolver never throws and makes exactly one search, of
    the quoted company name in the network's company namespace, asking for
    five results.  An anchor it answers is the URL of one of the results and
    lies in that namespace; it answers none only when the search failed or no
    result lies there; and when some result also holds the hyphenated company
    name, the anchor is such a result. *)
Theorem anchor_resolver_contract cName cDomain (st : State) :
  exists anchor,
    findCompanyLinkedInPage tools cName cDomain st
    = (inr anchor,
       mkState (snd (search tools (anchorQuery cName) 5 (world st)))
               (calls st ++ [CallSearch (anchorQuery cName) 5])
               (results st))
    /\ (forall u, anchor = Some u ->
          exists rs r, fst (search tools (anchorQuery cName) 5 (world st)) = inr rs
                       /\ In r rs /\ url r = u
                       /\ JS.includes u "linkedin.com/company" = true)
    /\ (anchor = None ->
          forall rs r, fst (search tools (anchorQuery cName) 5 (world st)) = inr rs ->
                       In r rs -> JS.includes (url r) "linkedin.com/company" = false)
    /\ (forall rs r, fst (search tools (anchorQuery cName) 5 (world st)) = inr rs ->
                     In r rs -> namesCompany cName r = true ->
                     exists r', In r' rs /\ namesCompany cName r' = true
                                /\ anchor = Some (url r')).
Proof. apply findCompanyLinkedInPage_run. Qed.

(** X11.  Storing the engine's answer never throws and calls nothing.  An
    entry of the mapping afterwards has a value and is an entry of the answer,
    or was there before; with one entry per key every entry with a value is
    stored; a key whose entries have no value is left as it was. *)
Theorem storeResults_keeps_valued_entries entries (st : State) :
  exists m,
    storeResults has_value entries st = (inr tt, mkState (world st) (calls st) m)
    /\ (forall k v, m !! k = Some v ->
          (has_value v = true /\ In (k, v) entries) \/ results st !! k = Some v)
    /\ (List.NoDup (map fst entries) ->
        forall k v, In (k, v) entries -> has_value v = true -> m !! k = Some v)
    /\ (forall k, (forall v, In (k, v) entries -> has_value v = false) ->
                  m !! k = results st !! k).
Proof.
  exists (storedResults has_value entries (results st)).
  split; [apply storeResults_run|]. split; [apply storedResults_sound|].
  split; [intros Hnd k v; now apply storedResults_complete|].
  apply storedResults_untouched.
Qed.

(** X12.  The answer of [execute] is all or nothing: it is the empty mapping,
    or it is the answer of the one call of the extraction engine, made last
    and for the caller's fields, with the entries that have a value stored in
    an empty mapping.  Every value of it passes the value test. *)
Theorem execute_answer_all_or_nothing context fields (st : State) :
  exists r st',
    execute has_value URL_pathname tools context fields st = (inr r, st')
    /\ (r = ∅
        \/ exists before evidence ectx w entries w',
             calls st' = before ++ [CallExtract evidence fields ectx]
             /\ extractStructuredData tools evidence fields ectx w = (inr entries, w')
             /\ world st' = w'
             /\ r = storedResults has_value entries ∅)
    /\ (forall k v, r !! k = Some v -> has_value v = true).
Proof.
  destruct (negb (JS.truthy_opt (resolveCompanyName context))
            && negb (JS.truthy_opt (resolveCompanyDomain context))) eqn:Hid.
  { exists ∅, st. unfold execute. rewrite Hid. split; [reflexivity|].
    split; [now left|]. intros k v. rewrite lookup_empty. discriminate. }
  destruct (execute_outcome context fields st Hid) as [anchorCalls [anchor [w1 [_ Hrun]]]].
  cbv zeta in Hrun. rewrite Hrun. clear Hrun.
  destruct (_ ++ flat_map pushedBy _) as [|r0 recs0].
  { eexists _, _. split; [reflexivity|]. split; [now left|].
    intros k v. rewrite lookup_empty. discriminate. }
  destruct (extractStructuredData tools _ fields _ _) as [[e|entries] w3] eqn:Hex.
  - eexists _, _. split; [reflexivity|]. split; [now left|].
    intros k v. rewrite lookup_empty. discriminate.
  - eexists _, _. split; [reflexivity|]. split.
    + right. eexists _, _, _, _, entries, w3. split; [reflexivity|].
      split; [exact Hex|]. split; reflexivity.
    + intros k v Hkv. apply storedResults_sound in Hkv as [[Hv _]|Hkv]; [exact Hv|].
      rewrite lookup_empty in Hkv. discriminate.
Qed.

(** X13.  The calls of one [execute], in order: at most one anchor search
    (limit 5), made only when a company name is known; one search (limit 3)
    per synthesized query; fetches of a front part of [/about], [/team],
    [/leadership] on the company's domain; and at most one call of the
    engine, with non-empty evidence, the caller's fields and the caller's
    context. *)
Theorem execute_call_discipline context fields (st : State) :
  let cName := resolveCompanyName context in
  let cDomain := resolveCompanyDomain context in
  exists anchorCalls anchor queries scraped extractCalls,
    calls (snd (execute has_value URL_pathname tools context fields st))
    = calls st ++ anchorCalls ++ map search3 queries
        ++ map CallScrape scraped ++ extractCalls
    /\ (anchorCalls = []
        \/ (JS.truthy_opt cName = true
            /\ anchorCalls = [CallSearch (anchorQuery (JS.show cName)) 5]))
    /\ (forall u, anchor = Some u ->
          JS.truthy_opt cName = true /\ JS.includes u "linkedin.com/company" = true)
    /\ (queries = []
        \/ queries = buildLinkedInFirstQueries URL_pathname fields cName cDomain anchor)
    /\ (exists rest,
          (if JS.truthy_opt cDomain && hasExecutiveFields fields
           then leadershipPages (JS.show cDomain) else []) = scraped ++ rest)
    /\ (extractCalls = []
        \/ exists evidence,
             extractCalls
             = [CallExtract evidence fields
                            (mkEnrichmentContext cName cDomain cDomain anchor context)]
             /\ evidence <> EmptyString).
Proof.
  cbv zeta.
  destruct (negb (JS.truthy_opt (resolveCompanyName context))
            && negb (JS.truthy_opt (resolveCompanyDomain context))) eqn:Hid.
  { exists [], None, [], [], []. unfold execute. rewrite Hid. simpl. rewrite app_nil_r.
    split; [reflexivity|]. split; [now left|]. split; [discriminate|].
    split; [now left|]. split; [|now left]. eexists. reflexivity. }
  destruct (execute_outcome context fields st Hid) as [anchorCalls [anchor [w1 [Hfacts Hrun]]]].
  cbv zeta in Hrun. rewrite Hrun. clear Hrun.
  set (queries := buildLinkedInFirstQueries _ _ _ _ _).
  set (pages := if _ && _ then _ else _).
  set (attempts := scrapeAttempts tools pages _).
  set (recs := _ ++ flat_map pushedBy _).
  assert (Hanchor : (anchorCalls = []
             \/ (JS.truthy_opt (resolveCompanyName context) = true
                 /\ anchorCalls
                    = [CallSearch (anchorQuery (JS.show (resolveCompanyName context))) 5]))
            /\ (forall u, anchor = Some u ->
                  JS.truthy_opt (resolveCompanyName context) = true
                  /\ JS.includes u "linkedin.com/company" = true)).
  { destruct Hfacts as [[Hn [-> [-> _]]]|[Hn [-> [_ Hu]]]].
    - split; [now left | discriminate].
    - split; [now right|]. intros u E. split; [exact Hn | now apply Hu]. }
  destruct Hanchor as [Hcalls Hsome].
  assert (Hpages : exists rest, pages = map fst (fst attempts) ++ rest)
    by apply scrapeAttempts_prefix.
  assert (Hlog : forall extra,
            (calls st ++ anchorCalls ++ map search3 queries
               ++ map (fun a => CallScrape (fst a)) (fst attempts)) ++ extra
            = calls st ++ anchorCalls ++ map search3 queries
                ++ map CallScrape (map fst (fst attempts)) ++ extra).
  { intros extra. rewrite map_map, <- !app_assoc. reflexivity. }
  exists anchorCalls, anchor, queries, (map fst (fst attempts)).
  destruct recs as [|r0 recs0] eqn:Hrecs.
  { exists []. cbn [snd calls]. rewrite <- Hlog, app_nil_r.
    split; [reflexivity|]. split; [exact Hcalls|]. split; [exact Hsome|].
    split; [now right|]. split; [exact Hpages|]. now left. }
  assert (Hev : combinedContent (rank (resolveCompanyDomain context) (r0 :: recs0))
                <> EmptyString).
  { apply combinedContent_nonempty. intros E. apply rank_nil_iff in E. discriminate E. }
  destruct (extractStructuredData tools _ fields _ _) as [[e|entries] w3];
    eexists [_]; cbn [snd calls]; rewrite <- Hlog;
    (split; [reflexivity|]); (split; [exact Hcalls|]); (split; [exact Hsome|]);
    (split; [now right|]); (split; [exact Hpages|]);
    right; eexists; (split; [reflexivity | exact Hev]).
Qed.

(** X14.  No evidence, no extraction: when every search fails or finds
    nothing and no page can be fetched with content, [execute] answers the
    empty mapping and never calls the engine. *)
Theorem execute_without_evidence context fields (st : State) :
  (forall q n w, contribution (fst (search tools q n w)) = []) ->
  (forall u w, usable (fst (scrape tools u w)) = false) ->
  exists st' newCalls,
    execute has_value URL_pathname tools context fields st = (inr ∅, st')
    /\ calls st' = calls st ++ newCalls
    /\ Forall notExtract newCalls.
Proof.
  intros Hsearch Hscrape.
  destruct (negb (JS.truthy_opt (resolveCompanyName context))
            && negb (JS.truthy_opt (resolveCompanyDomain context))) eqn:Hid.
  { exists st, []. unfold execute. rewrite Hid, app_nil_r. repeat split. constructor. }
  destruct (execute_outcome context fields st Hid) as [anchorCalls [anchor [w1 [Hfacts Hrun]]]].
  cbv zeta in Hrun. rewrite Hrun. clear Hrun.
  rewrite searchAnswers_barren, scrapeAttempts_barren by assumption. simpl app.
  eexists _, _. split; [reflexivity|]. split; [reflexivity|].
  apply Forall_app. split; [|apply Forall_app; split].
  - destruct Hfacts as [[_ [-> _]]|[_ [-> _]]]; repeat constructor.
  - apply List.Forall_forall. intros c Hc. apply in_map_iff in Hc as [q [<- _]]. exact I.
  - apply List.Forall_forall. intros c Hc. apply in_map_iff in Hc as [a [<- _]]. exact I.
Qed.

(** X15.  With no field to enrich, [execute] answers the empty mapping after
    at most the anchor search: no query is synthesized, no page fetched, the
    engine not called. *)
Theorem execute_without_fields context (st : State) :
  exists st' anchorCalls,
    execute has_value URL_pathname tools context [] st = (inr ∅, st')
    /\ calls st' = calls st ++ anchorCalls
    /\ (anchorCalls = []
        \/ anchorCalls
           = [CallSearch (anchorQuery (JS.show (resolveCompanyName context))) 5]).
Proof.
  destruct (negb (JS.truthy_opt (resolveCompanyName context))
            && negb (JS.truthy_opt (resolveCompanyDomain context))) eqn:Hid.
  { exists st, []. unfold execute. rewrite Hid, app_nil_r. repeat split. now left. }
  destruct (execute_outcome context [] st Hid) as [anchorCalls [anchor [w1 [Hfacts Hrun]]]].
  cbv zeta in Hrun. rewrite Hrun. clear Hrun.
  change (hasExecutiveFields []) with false. rewrite andb_false_r.
  change (buildLinkedInFirstQueries URL_pathname [] (resolveCompanyName context)
            (resolveCompanyDomain context) anchor) with (@nil string).
  simpl. exists (mkState w1 (calls st ++ anchorCalls ++ []) ∅), anchorCalls.
  split; [reflexivity|]. split; [simpl; now rewrite app_nil_r|].
  destruct Hfacts as [[_ [-> _]]|[_ [-> _]]]; [now left | now right].
Qed.

(** X16.  An empty string counts as no identity: when each source of the
    company name and the company domain is undefined or empty, [execute]
    answers the empty mapping and leaves the state as it found it. *)
Theorem execute_ignores_empty_identity context fields (st : State) :
  JS.truthy_opt (companyName context) = false ->
  JS.truthy_opt (discoveredData context ≫= (fun d => d !! "companyName")) = false ->
  JS.truthy_opt (emailContext context ≫= companyNameGuess) = false ->
  JS.truthy_opt (emailContext context ≫= companyDomain) = false ->
  execute has_value URL_pathname tools context fields st = (inr ∅, st).
Proof.
  intros H1 H2 H3 H4. apply execute_short_circuit; [|exact H4].
  unfold resolveCompanyName, JS.or_else. rewrite H1, H2. exact H3.
Qed.

End ExecuteFacts.

Lemma execute_without_evidence_witness :
  exists st' newCalls,
    execute (fun v => JS.truthy v) PlainURL.pathname barrenTools acmeContext [ceoField]
            sampleState = (inr ∅, st')
    /\ calls st' = calls sampleState ++ newCalls
    /\ Forall notExtract newCalls.
Proof.
  apply (execute_without_evidence (fun v => JS.truthy v) PlainURL.pathname barrenTools
           acmeContext [ceoField] sampleState).
  - intros q n w. reflexivity.
  - intros u w. reflexivity.
Defined.

Lemma execute_ignores_empty_identity_witness :
  execute (fun v => JS.truthy v) PlainURL.pathname sampleTools
          (mkContext (Some EmptyString) None (Some (mkEmailContext (Some EmptyString) None)))
          [ceoField] sampleState
  = (inr ∅, sampleState).
Proof.
  exact (execute_ignores_empty_identity (fun v => JS.truthy v) PlainURL.pathname sampleTools
           (mkContext (Some EmptyString) None (Some (mkEmailContext (Some EmptyString) None)))
           [ceoField] sampleState eq_refl eq_refl eq_refl eq_refl).
Defined.

(** The scenario of the specification: the engine leaves the CEO empty and
    names a founder; only the founder is stored. *)
Lemma storeResults_keeps_valued_entries_witness :
  exists m,
    storeResults (fun v => JS.truthy v) [("ceo", EmptyString); ("founder", "Jane Doe")]
                 sampleState
    = (inr tt, mkState (world sampleState) (calls sampleState) m)
    /\ m !! "founder" = Some "Jane Doe"
    /\ m !! "ceo" = None.
Proof.
  destruct (storeResults_keeps_valued_entries (fun v => JS.truthy v)
              [("ceo", EmptyString); ("founder", "Jane Doe")] sampleState)
    as [m [Hrun [_ [Hstored Hleft]]]].
  exists m. split; [exact Hrun|]. split.
  - apply Hstored.
    + repeat constructor; simpl; intuition discriminate.
    + right. now left.
    + reflexivity.
  - rewrite Hleft; [reflexivity|].
    intros v [[= <-]|[[=]|[]]]. reflexivity.
Defined.

(** The same scenario through [execute]: evidence is found, the engine
    answers, and the mapping returned holds the founder alone. *)
Example execute_returns_the_valued_fields :
  fst (execute (fun v => JS.truthy v) PlainURL.pathname answeringTools acmeContext
               [ceoField; mkField "founder" "Company founder"] sampleState)
  = inr {[ "founder" := "Jane Doe" ]}.
Proof. vm_compute. reflexivity. Qed.

(** X17.  Classification is blind to ASCII case: two fields whose names and
    descriptions agree up to case are both executive or both not, and get the
    same canonical title unless both keep their own names. *)
Theorem classification_is_case_insensitive (f1 f2 : EnrichmentField) :
  JS.toLowerCase (name f1) = JS.toLowerCase (name f2) ->
  JS.toLowerCase (description f1) = JS.toLowerCase (description f2) ->
  isExecutiveField f1 = isExecutiveField f2
  /\ (extractTitle f1 = extractTitle f2
      \/ (extractTitle f1 = name f1 /\ extractTitle f2 = name f2)).
Proof.
  intros Hn Hd. unfold isExecutiveField, extractTitle. rewrite Hn, Hd.
  split; [reflexivity|].
  repeat match goal with
         | |- context [if ?c then _ else _] => destruct c; [left; reflexivity|]
         end.
  right. split; reflexivity.
Qed.

Lemma classification_is_case_insensitive_witness :
  isExecutiveField (mkField "Company CEO" "THE BOSS") = isExecutiveField (mkField "company ceo" "the boss")
  /\ extractTitle (mkField "Company CEO" "THE BOSS") = "CEO".
Proof.
  destruct (classification_is_case_insensitive (mkField "Company CEO" "THE BOSS")
              (mkField "company ceo" "the boss") eq_refl eq_refl) as [H _].
  split; [exact H | reflexivity].
Defined.

(** X18.  On fields none of which is an executive one, the older synthesizer
    [buildSearchQueries] gives the queries of [buildLinkedInFirstQueries]
    followed by one news query with the current year, the latter only when a
    company name is known and there is a field at all. *)
Theorem synthesizers_agree_without_executive_fields
    (URL_pathname : string -> option string) (year : string)
    (fields : list EnrichmentField) (cName cDomain anchor : option string) :
  hasExecutiveFields fields = false ->
  buildSearchQueries year fields cName cDomain
  = buildLinkedInFirstQueries URL_pathname fields cName cDomain anchor
    ++ (if JS.truthy_opt cName && (0 <? length fields)%nat
        then [JS.dq +:+ JS.show cName +:+ JS.dq +:+ " news announcement " +:+ year]
        else []).
Proof.
  intros H. destruct (no_executive_fields fields H) as [Hexec Hother].
  unfold buildSearchQueries, buildLinkedInFirstQueries. rewrite Hexec, Hother.
  reflexivity.
Qed.

Lemma synthesizers_agree_without_executive_fields_witness :
  buildSearchQueries "2026" [revenueField] (Some "Acme Corp") (Some "acme.com")
  = buildLinkedInFirstQueries PlainURL.pathname [revenueField] (Some "Acme Corp")
                              (Some "acme.com") None
    ++ [JS.dq +:+ "Acme Corp" +:+ JS.dq +:+ " news announcement 2026"].
Proof.
  exact (synthesizers_agree_without_executive_fields PlainURL.pathname "2026" [revenueField]
           (Some "Acme Corp") (Some "acme.com") None eq_refl).
Defined.
